(** * importlinter.contracts._common: chain extraction, collapsing and rendering

    A shallow embedding of [src/importlinter/contracts/_common.py] and the
    properties its specification states about it.

    Python values are modelled as follows.
    - [str] is [string]; [sorted] on strings is a merge sort for the
      code-point order ([String.leb]).
    - [int] is [Z]; an optional line number is [option Z].
    - a [set] is a [gset]; [sorted(s)] sorts [elements s].
    - an uncaught exception is the left summand of [Result].
    - the mutable graph is threaded through explicitly; the reference graph
      is a second, distinct object that is only read (the docstring of
      [find_segments] says so), hence a plain value. *)

From Stdlib Require Import ZArith DecimalString.
From Stdlib Require DecimalPos DecimalZ.
From stdpp Require Import base option list sorting strings gmap.

Local Open Scope Z_scope.
Local Open Scope nat_scope.

(** ** Python primitives *)

Inductive PyError : Type :=
  | ValueError (message : string)
  | IndexError.

Abbreviation Result := (sum PyError).

Definition raise {A} (e : PyError) : Result A := inl e.

Definition result_bind {A B} (m : Result A) (k : A → Result B) : Result B :=
  match m with
  | inl e => inl e
  | inr x => k x
  end.

#[global] Instance result_mret : MRet Result := λ A x, inr x.
#[global] Instance result_mbind : MBind Result := λ A B k m, result_bind m k.

(** [for x in xs: ys.append(f(x))] where [f] may raise. *)
Fixpoint result_mapM {A B} (f : A → Result B) (xs : list A) : Result (list B) :=
  match xs with
  | [] => mret []
  | x :: xs' => y ← f x; ys ← result_mapM f xs'; mret (y :: ys)
  end.

(** [l[0]]: raises IndexError on the empty list. *)
Definition py_first {A} (l : list A) : Result A :=
  match l with
  | [] => raise IndexError
  | x :: _ => mret x
  end.

(** [l[-1]]: raises IndexError on the empty list. *)
Definition py_last {A} (l : list A) : Result A :=
  match l with
  | [] => raise IndexError
  | x :: l' => mret (List.last l' x)
  end.

(** [l[1:]], [l[:-1]] and [l[1:-1]] never raise. *)
Definition py_from1 {A} (l : list A) : list A := tail l.
Definition py_upto_last {A} (l : list A) : list A := removelast l.
Definition py_inner {A} (l : list A) : list A := removelast (tail l).

(** [enumerate(l)]. *)
Definition enumerate {A} (l : list A) : list (nat * A) :=
  zip (seq 0 (length l)) l.

(** The order Python uses to sort [str]: lexicographic on code points. *)
Definition str_le (s1 s2 : string) : Prop := String.leb s1 s2 = true.

#[global] Instance str_le_dec : RelDecision str_le.
Proof. intros s1 s2. unfold str_le. apply _. Defined.

(** [sorted(xs)] for an iterable of strings. *)
Definition sorted_str (xs : list string) : list string := merge_sort str_le xs.

(** [sorted(set(xs))] for an iterable of ints. *)
Definition sorted_set_int (xs : list Z) : list Z :=
  merge_sort Z.le (elements (list_to_set xs : gset Z)).

(** [str(n)] for an int, as used by an f-string. *)
Definition str_of_int (n : Z) : string := NilZero.string_of_int (Z.to_int n).

(** [sep.join(parts)]. *)
Definition join (sep : string) (parts : list string) : string :=
  String.concat sep parts.

(** [n * " "]. *)
Fixpoint spaces (n : nat) : string :=
  match n with
  | 0 => ""
  | S n' => " " +:+ spaces n'
  end.

(** ** importlinter.domain.imports.Module *)

(** Modelled from the spec: the [Module] value object of
    [importlinter.domain.imports], which [_common.py] imports and which is
    defined in another file of the package.  Equality is equality of
    names; a module descends from another when its name is the other's name,
    a dot and a non-empty suffix. *)
Record Module_ : Type := Module { name : string }.

#[global] Instance Module_eq_dec : EqDecision Module_.
Proof. solve_decision. Defined.

Definition is_descendant_of (m other : Module_) : bool :=
  String.prefix (name other +:+ ".") (name m)
  && bool_decide (String.length (name other) + 1 < String.length (name m)).

(** The filter both expansions of [segments_to_collapsed_chains] apply:
    [Module(m) == family or Module(m).is_descendant_of(family)]. *)
Definition in_family (family : Module_) (m : string) : bool :=
  bool_decide (Module m = family) || is_descendant_of (Module m) family.

(** ** The import graph collaborator *)

(** One record of [get_import_details]; the importer and the imported module
    are those of the edge it is stored under. *)
Record DetailedImport : Type := Detail {
  line_number : Z;
  line_contents : string
}.

(** Modelled from the spec: the graph collaborator ([grimp.ImportGraph]) is
    an external library.  Section 6 of the specification gives its
    contract; the model is a finite map from the edges (importer, imported)
    to the detail records kept for that edge, which may be none.  The
    modules of a graph are those that occur in an import; what the library
    does when asked about a module it does not know is outside the model. *)
Abbreviation ImportGraph := (gmap (string * string) (list DetailedImport)).

(** Edge details: empty if there is no direct edge. *)
Definition get_import_details (graph : ImportGraph) (importer imported : string)
  : list DetailedImport :=
  default [] (graph !! (importer, imported)).

(** Remove edge: a no-op if the edge is absent. *)
Definition remove_import (graph : ImportGraph) (importer imported : string)
  : ImportGraph :=
  delete (importer, imported) graph.

(** Direct importers: the set of modules with a direct edge into [module]. *)
Definition find_modules_that_directly_import (graph : ImportGraph) (module : string)
  : gset string :=
  set_map fst (filter (λ e : string * string, e.2 = module) (dom graph)).

(** Direct imports: the set of modules directly imported by [module]. *)
Definition find_modules_directly_imported_by (graph : ImportGraph) (module : string)
  : gset string :=
  set_map snd (filter (λ e : string * string, e.1 = module) (dom graph)).

(** [pairwise(iterable)]: [zip(a, b)] after advancing [b] once. *)
Definition pairwise {A} (iterable : list A) : list (A * A) :=
  zip iterable (tail iterable).

(** A chain of imports from [a] to [b]: a sequence of at least two modules,
    each importing the next. *)
Definition is_chain (graph : ImportGraph) (a b : string) (c : list string) : Prop :=
  head c = Some a ∧ last c = Some b ∧ 2 ≤ length c
  ∧ Forall (λ e, e ∈ dom graph) (pairwise c).

(** Shortest path: a chain with the fewest edges, or nothing when there is no
    chain.  Which of several shortest chains is returned is left to the
    collaborator, so the search is an interface with its contract.  The
    answer is [None] or a tuple; [_pop_shortest_chains] treats the empty
    tuple like [None]. *)
Class ShortestChainFinder : Type := {
  find_shortest_chain : ImportGraph → string → string → option (list string);
  find_shortest_chain_is_chain graph a b c :
    find_shortest_chain graph a b = Some c → is_chain graph a b c;
  find_shortest_chain_shortest graph a b c c' :
    find_shortest_chain graph a b = Some c → is_chain graph a b c' →
    length c ≤ length c';
  find_shortest_chain_none graph a b c :
    find_shortest_chain graph a b = None → ¬ is_chain graph a b c
}.

(** ** The data model of _common.py *)

Module Link.
Record t : Type := Build {
    importer : string;
    imported : string;
    line_numbers : list (option Z)
  }.
End Link.

Abbreviation Chain := (list Link.t).

Module DetailedChain.
Record t : Type := Build {
    chain : Chain;
    extra_firsts : list Link.t;
    extra_lasts : list Link.t
  }.
End DetailedChain.

(** [format_line_numbers]. *)
Definition format_line_number (line_number : option Z) : string :=
  match line_number with
  | None => "l.?"
  | Some n => "l." +:+ str_of_int n
  end.

Definition format_line_numbers (line_numbers : list (option Z)) : string :=
  join ", " (format_line_number <$> line_numbers).

Module ImportNote.
Record t : Type := Build {
    module : string;
    msg : string;
    line_numbers : list (option Z)
  }.

Definition __str__ (self : t) : string :=
    msg self +:+ " (" +:+ format_line_numbers (line_numbers self) +:+ ")".
End ImportNote.

(** ** Chain extraction *)

(** [chain[index]] for an index known to be in range. *)
Definition item (chain : list string) (index : nat) : string := chain !!! index.

(** [[(chain[i], chain[i + 1]) for i in range(len(chain) - 1)]]. *)
Definition index_pairs (chain : list string) : list (string * string) :=
  (λ i, (item chain i, item chain (i + 1))) <$> seq 0 (length chain - 1).

(** The removal loop of [_pop_shortest_chains]:
    [for index in range(len(chain) - 1): graph.remove_import(...)]. *)
Definition remove_chain (graph : ImportGraph) (chain : list string) : ImportGraph :=
  foldl (λ g index, remove_import g (item chain index) (item chain (index + 1)))
        graph (seq 0 (length chain - 1)).

(** [tuple(sorted(set(j["line_number"] for j in import_details)))]. *)
Definition sorted_line_numbers (import_details : list DetailedImport) : list (option Z) :=
  Some <$> sorted_set_int (line_number <$> import_details).

(** The body of the loop of [find_segments] that turns one chain into a
    segment, reading the reference graph. *)
Definition segment_of_chain (reference_graph : ImportGraph) (chain : list string) : Chain :=
  (λ '(importer_in_chain, imported_in_chain),
     let import_details :=
       get_import_details reference_graph importer_in_chain imported_in_chain in
     Link.Build importer_in_chain imported_in_chain (sorted_line_numbers import_details))
  <$> index_pairs chain.

Section extraction.
Context `{finder : ShortestChainFinder}.

(** One resumption of the generator [_pop_shortest_chains]: query the
    graph; a truthy chain has its imports removed and is yielded with the
    mutated graph; a falsy answer ([None] or an empty tuple) ends the
    generator. *)
Definition pop_shortest_chain (graph : ImportGraph) (importer imported : string)
  : option (list string * ImportGraph) :=
  match find_shortest_chain graph importer imported with
  | Some ((_ :: _) as chain) => Some (chain, remove_chain graph chain)
  | _ => None
  end.

(** The generator run to exhaustion: the chains it yields and the graph it
    leaves.  [None] stands for a loop that has not ended within [fuel]
    resumptions. *)
Fixpoint pop_shortest_chains_loop (fuel : nat) (graph : ImportGraph)
    (importer imported : string) : option (list (list string) * ImportGraph) :=
  match fuel with
  | 0 => None
  | S fuel' =>
      match pop_shortest_chain graph importer imported with
      | None => Some ([], graph)
      | Some (chain, graph') =>
          '(chains, final) ← pop_shortest_chains_loop fuel' graph' importer imported;
          Some (chain :: chains, final)
      end
  end.

(** Every resumption that yields removes an import, so the number of imports
    of the graph, plus one for the last query, bounds the resumptions. *)
Definition _pop_shortest_chains (graph : ImportGraph) (importer imported : string)
  : option (list (list string) * ImportGraph) :=
  pop_shortest_chains_loop (S (size graph)) graph importer imported.

(** The [for] loop of [find_segments] over the generator.  The generator is
    lazy: a [raise] in the body leaves the graph as the last resumption left
    it. *)
Fixpoint find_segments_loop (fuel : nat) (graph reference_graph : ImportGraph)
    (importer imported : string) (segments : list Chain)
  : option (Result (list Chain) * ImportGraph) :=
  match fuel with
  | 0 => None
  | S fuel' =>
      match pop_shortest_chain graph importer imported with
      | None => Some (mret segments, graph)
      | Some (chain, graph') =>
          if decide (length chain = 2) then
            Some (raise (ValueError "Direct chain found - these should have been removed."),
                  graph')
          else
            let segment := segment_of_chain reference_graph chain in
            find_segments_loop fuel' graph' reference_graph importer imported
                               (segments ++ [segment])
      end
  end.

Definition find_segments (graph reference_graph : ImportGraph)
    (importer imported : Module_) : option (Result (list Chain) * ImportGraph) :=
  find_segments_loop (S (size graph)) graph reference_graph
                     (name importer) (name imported) [].

End extraction.

(** ** Segment collapsing *)

Definition head_imports (graph : ImportGraph) (importer : Module_)
    (imported_module : string) : list Link.t :=
  let candidate_modules :=
    sorted_str (elements (find_modules_that_directly_import graph imported_module)) in
  (λ module,
     let import_details_list := get_import_details graph module imported_module in
     Link.Build module imported_module (sorted_line_numbers import_details_list))
  <$> filter (λ m, in_family importer m = true) candidate_modules.

Definition tail_imports (graph : ImportGraph) (imported : Module_)
    (importer_module : string) : list Link.t :=
  let candidate_modules :=
    sorted_str (elements (find_modules_directly_imported_by graph importer_module)) in
  (λ module,
     let import_details_list := get_import_details graph importer_module module in
     Link.Build importer_module module (sorted_line_numbers import_details_list))
  <$> filter (λ m, in_family imported m = true) candidate_modules.

(** The body of the loop of [segments_to_collapsed_chains]. *)
Definition collapse_segment (graph : ImportGraph) (importer imported : Module_)
    (segment : Chain) : Result DetailedChain.t :=
  first ← py_first segment;
  let heads := head_imports graph importer (Link.imported first) in
  last ← py_last segment;
  let tails := tail_imports graph imported (Link.importer last) in
  primary_head ← py_first heads;
  primary_tail ← py_first tails;
  mret (DetailedChain.Build ([primary_head] ++ py_inner segment ++ [primary_tail])
                            (py_from1 heads) (py_from1 tails)).

Definition segments_to_collapsed_chains (graph : ImportGraph) (segments : list Chain)
    (importer imported : Module_) : Result (list DetailedChain.t) :=
  result_mapM (collapse_segment graph importer imported) segments.

(** ** Route-based assembly *)

(** [grimp.Route]: two sets of interchangeable ends and the modules between
    them. *)
Record Route : Type := {
  heads : gset string;
  middle : list string;
  tails : gset string
}.

Definition get_line_numbers (importer imported : string) (graph : ImportGraph)
  : list (option Z) :=
  let details := get_import_details graph importer imported in
  match details with
  | [] => [None]
  | _ :: _ => (λ i, Some (line_number i)) <$> details
  end.

Definition build_detailed_chain_from_route (route : Route) (graph : ImportGraph)
  : Result DetailedChain.t :=
  let ordered_heads := sorted_str (elements (heads route)) in
  extra_firsts ←
    result_mapM (λ head,
        middle_first ← py_first (middle route);
        mret (Link.Build head middle_first (get_line_numbers head middle_first graph)))
      (py_from1 ordered_heads);
  let ordered_tails := sorted_str (elements (tails route)) in
  extra_lasts ←
    result_mapM (λ tail,
        middle_last ← py_last (middle route);
        mret (Link.Build middle_last tail (get_line_numbers middle_last tail graph)))
      (py_from1 ordered_tails);
  first_head ← py_first ordered_heads;
  first_tail ← py_first ordered_tails;
  let chain_as_strings := [first_head] ++ middle route ++ [first_tail] in
  let chain_as_links :=
    (λ '(importer, imported),
       Link.Build importer imported (get_line_numbers importer imported graph))
    <$> pairwise chain_as_strings in
  mret (DetailedChain.Build chain_as_links extra_firsts extra_lasts).

(** ** Note rendering *)

Definition _notes_from_direct_import (direct_import : Link.t)
    (extra_firsts extra_lasts : option (list Link.t)) : list ImportNote.t :=
  let import_notes := [] in
  let import_notes :=
    match extra_firsts with
    | Some (extra :: extras) =>
        let import_notes :=
          foldl (λ notes '(position, source),
                   let prefix := if bool_decide (0 < position) then "& " else "" in
                   let importer := Link.importer source in
                   notes ++ [ImportNote.Build importer (prefix +:+ importer)
                                              (Link.line_numbers source)])
                import_notes
                (enumerate ([direct_import] ++ py_upto_last (extra :: extras))) in
        let last_extra := List.last extras extra in
        let importer := Link.importer last_extra in
        let imported := Link.imported last_extra in
        import_notes ++ [ImportNote.Build importer
                           ("& " +:+ importer +:+ " -> " +:+ imported)
                           (Link.line_numbers last_extra)]
    | _ =>
        let importer := Link.importer direct_import in
        let imported := Link.imported direct_import in
        import_notes ++ [ImportNote.Build importer
                           (importer +:+ " -> " +:+ imported)
                           (Link.line_numbers direct_import)]
    end in
  match extra_lasts with
  | Some ((_ :: _) as destinations) =>
      let importer := Link.importer direct_import in
      let indent_string := spaces (String.length importer + 4) in
      foldl (λ notes destination,
               let imported := Link.imported destination in
               notes ++ [ImportNote.Build importer
                           (indent_string +:+ "& " +:+ imported)
                           (Link.line_numbers destination)])
            import_notes destinations
  | _ => import_notes
  end.

Definition notes_from_chain_data (chain_data : DetailedChain.t)
  : Result (list ImportNote.t) :=
  let main_chain := DetailedChain.chain chain_data in
  first_link ← py_first main_chain;
  let notes :=
    _notes_from_direct_import first_link (Some (DetailedChain.extra_firsts chain_data))
                              None in
  let notes :=
    foldl (λ notes direct_import,
             notes ++ _notes_from_direct_import direct_import None None)
          notes (py_inner main_chain) in
  if bool_decide (1 < length main_chain) then
    last_link ← py_last main_chain;
    mret (notes ++ _notes_from_direct_import last_link None
                     (Some (DetailedChain.extra_lasts chain_data)))
  else mret notes.

(** [render_notes_from_chain_data]: the lines handed to [output.print_error],
    in order. *)
Definition render_notes_from_chain_data (notes : list ImportNote.t) : list string :=
  (λ '(position, import_note),
     if bool_decide (position = 0) then "- " +:+ ImportNote.__str__ import_note
     else "  " +:+ ImportNote.__str__ import_note)
  <$> enumerate notes.

(** ** A concrete collaborator: search by increasing length *)

(** The first element of [l] on which [f] answers. *)
Fixpoint first_some {A B} (f : A → option B) (l : list A) : option B :=
  match l with
  | [] => None
  | x :: l' =>
      match f x with
      | Some y => Some y
      | None => first_some f l'
      end
  end.

(** A walk of exactly [k] imports from [a] to [b], if there is one. *)
Fixpoint chain_of_length (graph : ImportGraph) (k : nat) (a b : string)
  : option (list string) :=
  match k with
  | 0 => if decide (a = b) then Some [a] else None
  | S k' =>
      first_some (λ m, cons a <$> chain_of_length graph k' m b)
                 (sorted_str (elements (find_modules_directly_imported_by graph a)))
  end.

(** The shortest chain is the first walk found when the lengths 1, 2, ... up
    to the number of imports are tried in turn. *)
Definition search_shortest_chain (graph : ImportGraph) (a b : string)
  : option (list string) :=
  first_some (λ k, chain_of_length graph (S k) a b) (seq 0 (size graph)).

(** ** Notions used to state the properties *)

(** The graph without the imports [es]; removing a chain comes to this. *)
Definition remove_imports (graph : ImportGraph) (es : list (string * string))
  : ImportGraph :=
  foldl (λ g e, delete e g) graph es.

(** A walk of exactly [k] imports. *)
Definition is_walk (g : ImportGraph) (k : nat) (a b : string) (c : list string) : Prop :=
  head c = Some a ∧ last c = Some b ∧ length c = S k
  ∧ Forall (λ e, e ∈ dom g) (pairwise c).

(** A run of the generator to exhaustion, resumption by resumption. *)
Inductive pop_run `{finder : ShortestChainFinder} (importer imported : string)
  : ImportGraph → list (list string) → ImportGraph → Prop :=
  | pop_run_end graph :
      pop_shortest_chain graph importer imported = None →
      pop_run importer imported graph [] graph
  | pop_run_yield graph chain graph' chains final :
      pop_shortest_chain graph importer imported = Some (chain, graph') →
      pop_run importer imported graph' chains final →
      pop_run importer imported graph (chain :: chains) final.

(** What the specification says of the yielded sequence: each chain is a
    shortest one of the graph it was found in, its imports are gone from the
    graph the next query sees, and the sequence ends on a graph without any
    chain. *)
Fixpoint discovered_in_turn `{finder : ShortestChainFinder} (importer imported : string)
    (graph : ImportGraph) (chains : list (list string)) (final : ImportGraph) : Prop :=
  match chains with
  | [] => final = graph ∧ ∀ c, ¬ is_chain graph importer imported c
  | chain :: chains' =>
      find_shortest_chain graph importer imported = Some chain
      ∧ is_chain graph importer imported chain
      ∧ (∀ c, is_chain graph importer imported c → length chain ≤ length c)
      ∧ (∀ e, e ∈ dom (remove_chain graph chain) ↔ e ∈ dom graph ∧ e ∉ pairwise chain)
      ∧ discovered_in_turn importer imported (remove_chain graph chain) chains' final
  end.

(** The imports removed by a run, in the order of their removal. *)
Definition removed_imports (chains : list (list string)) : list (string * string) :=
  mjoin (pairwise <$> chains).

(** An import lies on a chain of the graph. *)
Definition on_some_chain (graph : ImportGraph) (importer imported : string)
    (e : string * string) : Prop :=
  ∃ c, is_chain graph importer imported c ∧ e ∈ pairwise c.

Definition direct_chain_error : PyError :=
  ValueError "Direct chain found - these should have been removed.".

(** A graph with a detour: [a -> x -> b] and [a -> y -> x], no import details
    recorded.  There is no direct import of [b] by [a]. *)
Definition detour_graph : ImportGraph :=
  list_to_map [(("a", "x"), []); (("x", "b"), []); (("a", "y"), []); (("y", "x"), [])].

(** The reading of the specification under which the removed imports are
    all the imports that lie on a chain of the original graph. *)
Definition removes_every_chain_import `{finder : ShortestChainFinder}
    (graph : ImportGraph) (importer imported : string) : Prop :=
  (importer, imported) ∉ dom graph →
  ∃ chains final,
    _pop_shortest_chains graph importer imported = Some (chains, final)
    ∧ (∀ e, e ∈ removed_imports chains ↔ on_some_chain graph importer imported e)
    ∧ NoDup (removed_imports chains).

(** [l] is the expansion of a boundary: the modules that satisfy [P], each
    once, in lexicographic order. *)
Definition is_expansion (P : string → Prop) (l : list string) : Prop :=
  StronglySorted str_le l ∧ NoDup l ∧ ∀ m, m ∈ l ↔ P m.

(** The link reported for an import, with the line numbers of the graph. *)
Definition link_of (graph : ImportGraph) (importer imported : string) : Link.t :=
  Link.Build importer imported
             (sorted_line_numbers (get_import_details graph importer imported)).

(** The modules a head or a tail expansion keeps. *)
Definition head_candidate (graph : ImportGraph) (importer : Module_)
    (boundary m : string) : Prop :=
  (m, boundary) ∈ dom graph ∧ in_family importer m = true.

Definition tail_candidate (graph : ImportGraph) (imported : Module_)
    (boundary m : string) : Prop :=
  (boundary, m) ∈ dom graph ∧ in_family imported m = true.

(** The detailed chain the specification describes for a segment. *)
Definition collapses_to (graph : ImportGraph) (importer imported : Module_)
    (segment : Chain) (detailed : DetailedChain.t) : Prop :=
  ∃ first rest h hs t ts,
    segment = first :: rest
    ∧ is_expansion (head_candidate graph importer (Link.imported first)) (h :: hs)
    ∧ is_expansion
        (tail_candidate graph imported (Link.importer (List.last rest first))) (t :: ts)
    ∧ detailed
      = DetailedChain.Build
          ([link_of graph h (Link.imported first)] ++ py_inner segment
           ++ [link_of graph (Link.importer (List.last rest first)) t])
          ((λ m, link_of graph m (Link.imported first)) <$> hs)
          ((λ m, link_of graph (Link.importer (List.last rest first)) m) <$> ts).

(** The graph of the example of the specification. *)
Definition example_graph : ImportGraph :=
  list_to_map [(("a.b", "c.d"), [Detail 3 "import c.d"]);
               (("c.d", "e.f"), [Detail 7 "import e.f"]);
               (("x.y", "c.d"), [Detail 4 "import c.d"]);
               (("e.f", "z"), [Detail 9 "import z"])].

(** A graph with one import, recorded on line 1. *)
Definition direct_graph : ImportGraph :=
  {[ ("a", "b") := [Detail 1 "import b"] ]}.

(** The reading of the specification under which the collapsing stage
    rejects a segment of a single link. *)
Definition rejects_single_link_segments (graph : ImportGraph) (segments : list Chain)
    (importer imported : Module_) : Prop :=
  (∃ segment, segment ∈ segments ∧ length segment = 1) →
  ∃ e, segments_to_collapsed_chains graph segments importer imported = inl e.

(** The link the route-based assembly reports for an import. *)
Definition route_link (graph : ImportGraph) (importer imported : string) : Link.t :=
  Link.Build importer imported (get_line_numbers importer imported graph).

(** A route and a chain [x, m1, ..., mk, y] of the extraction stand for the
    same paths: the route's middle is [m1, ..., mk], its heads are the
    candidates of the head expansion on [m1] and its tails the candidates of
    the tail expansion on [mk]. *)
Definition same_paths (graph : ImportGraph) (importer imported : Module_)
    (m1 : string) (ms : list string) (route : Route) : Prop :=
  middle route = m1 :: ms
  ∧ (∀ m, m ∈ heads route ↔ head_candidate graph importer m1 m)
  ∧ (∀ m, m ∈ tails route ↔ tail_candidate graph imported (List.last ms m1) m).

Definition link_ends (link : Link.t) : string * string :=
  (Link.importer link, Link.imported link).

(** Two detailed chains report the same imports, line numbers aside. *)
Definition same_imports (d1 d2 : DetailedChain.t) : Prop :=
  link_ends <$> DetailedChain.chain d1 = link_ends <$> DetailedChain.chain d2
  ∧ link_ends <$> DetailedChain.extra_firsts d1
    = link_ends <$> DetailedChain.extra_firsts d2
  ∧ link_ends <$> DetailedChain.extra_lasts d1
    = link_ends <$> DetailedChain.extra_lasts d2.

(** The details of an import are recorded, on strictly increasing lines. *)
Definition recorded_in_order (graph : ImportGraph) (e : string * string) : Prop :=
  get_import_details graph e.1 e.2 ≠ []
  ∧ StronglySorted Z.lt (line_number <$> get_import_details graph e.1 e.2).

(** The path [a -> b -> c], the first import recorded on line 7 and then on
    line 3, and the route that stands for this one path. *)
Definition unordered_graph : ImportGraph :=
  list_to_map [(("a", "b"), [Detail 7 "import b"; Detail 3 "from b import f"]);
               (("b", "c"), [Detail 1 "import c"])].

Definition unordered_route : Route :=
  {| heads := {["a"]}; middle := ["b"]; tails := {["c"]} |}.

(** The reading of the specification under which both ways give the same
    detailed chain: the chain [x, m1, ..., mk, y] found by extraction,
    collapsed, against the route with the same middle and ends. *)
Definition route_equals_segments (graph : ImportGraph) (importer imported : Module_)
    (x m1 : string) (ms : list string) (y : string) (route : Route) : Prop :=
  same_paths graph importer imported m1 ms route →
  ∀ d, build_detailed_chain_from_route route graph = inr d
       ↔ segments_to_collapsed_chains graph
           [segment_of_chain graph (x :: m1 :: ms ++ [y])] importer imported
         = inr [d].

(** The note of a link rendered on its own. *)
Definition plain_note (link : Link.t) : ImportNote.t :=
  ImportNote.Build (Link.importer link)
                   (Link.importer link +:+ " -> " +:+ Link.imported link)
                   (Link.line_numbers link).

(** The notes of the first link as the specification words them. *)
Definition first_link_notes (first : Link.t) (extra_firsts : list Link.t)
  : list ImportNote.t :=
  match extra_firsts with
  | [] => [plain_note first]
  | extra :: extras =>
      [ImportNote.Build (Link.importer first) (Link.importer first)
                        (Link.line_numbers first)]
      ++ ((λ source, ImportNote.Build (Link.importer source)
                                      ("& " +:+ Link.importer source)
                                      (Link.line_numbers source))
          <$> removelast (extra :: extras))
      ++ [let final := List.last extras extra in
          ImportNote.Build (Link.importer final)
                           ("& " +:+ Link.importer final +:+ " -> "
                            +:+ Link.imported final)
                           (Link.line_numbers final)]
  end.

(** The notes of the last link: the link, then one note per extra last. *)
Definition last_link_notes (final : Link.t) (extra_lasts : list Link.t)
  : list ImportNote.t :=
  plain_note final
  :: ((λ destination,
         ImportNote.Build (Link.importer final)
           (spaces (String.length (Link.importer final) + 4) +:+ "& "
            +:+ Link.imported destination)
           (Link.line_numbers destination))
      <$> extra_lasts).

(** An import recorded on lines 7, 3 and 7 again. *)
Definition repeated_graph : ImportGraph :=
  {[ ("a", "b") := [Detail 7 "import b"; Detail 3 "import b"; Detail 7 "import b"] ]}.

(** A chain of links in the sense of the data model: each link's imported
    module is the importer of the next link. *)
Definition linked (links : Chain) : Prop :=
  Forall (λ p : Link.t * Link.t, Link.imported p.1 = Link.importer p.2) (pairwise links).

(** The separator character of [format_line_numbers], and the strings
    without it. *)
Definition comma : Ascii.ascii := Ascii.ascii_of_nat 44.

Fixpoint comma_free (s : string) : bool :=
  match s with
  | EmptyString => true
  | String c s' => negb (Ascii.eqb c comma) && comma_free s'
  end.

(** * Properties *)

(** ** The order on strings and [sorted] *)

Lemma ascii_compare_refl (c : Ascii.ascii) : Ascii.compare c c = Eq.
Proof. unfold Ascii.compare. apply N.compare_refl. Qed.

Lemma ascii_compare_lt_trans (c1 c2 c3 : Ascii.ascii) :
  Ascii.compare c1 c2 = Lt → Ascii.compare c2 c3 = Lt → Ascii.compare c1 c3 = Lt.
Proof.
  unfold Ascii.compare. rewrite !N.compare_lt_iff. apply N.lt_trans.
Qed.

Lemma string_compare_refl (s : string) : String.compare s s = Eq.
Proof.
  induction s as [|c s IH]; simpl; [done|]. by rewrite ascii_compare_refl.
Qed.

Lemma string_leb_trans (s1 s2 s3 : string) :
  String.leb s1 s2 = true → String.leb s2 s3 = true → String.leb s1 s3 = true.
Proof.
  unfold String.leb. revert s2 s3.
  induction s1 as [|c1 s1 IH]; intros [|c2 s2] [|c3 s3]; simpl; try done.
  destruct (Ascii.compare c1 c2) eqn:H12; try done;
    destruct (Ascii.compare c2 c3) eqn:H23; try done; intros Ha Hb.
  - apply Ascii.compare_eq_iff in H12, H23. subst.
    rewrite ascii_compare_refl. by eapply IH.
  - apply Ascii.compare_eq_iff in H12. subst. by rewrite H23.
  - apply Ascii.compare_eq_iff in H23. subst. by rewrite H12.
  - by rewrite (ascii_compare_lt_trans _ _ _ H12 H23).
Qed.

#[global] Instance str_le_refl : Reflexive str_le.
Proof. intros s. unfold str_le, String.leb. by rewrite string_compare_refl. Qed.

#[global] Instance str_le_trans : Transitive str_le.
Proof. intros s1 s2 s3. apply string_leb_trans. Qed.

#[global] Instance str_le_antisym : AntiSymm (=) str_le.
Proof. intros s1 s2. apply String.leb_antisym. Qed.

#[global] Instance str_le_total : Total str_le.
Proof. intros s1 s2. apply String.leb_total. Qed.

Lemma sorted_str_perm (xs : list string) : sorted_str xs ≡ₚ xs.
Proof. apply merge_sort_Permutation. Qed.

Lemma sorted_str_sorted (xs : list string) : StronglySorted str_le (sorted_str xs).
Proof. apply StronglySorted_merge_sort; apply _. Qed.

Lemma elem_of_sorted_str (x : string) (xs : list string) : x ∈ sorted_str xs ↔ x ∈ xs.
Proof. by rewrite sorted_str_perm. Qed.

Lemma sorted_str_NoDup (xs : list string) : NoDup xs → NoDup (sorted_str xs).
Proof. by rewrite sorted_str_perm. Qed.

Lemma sorted_set_int_sorted (xs : list Z) : StronglySorted Z.le (sorted_set_int xs).
Proof. apply StronglySorted_merge_sort; apply _. Qed.

Lemma sorted_set_int_NoDup (xs : list Z) : NoDup (sorted_set_int xs).
Proof.
  unfold sorted_set_int. rewrite merge_sort_Permutation. apply NoDup_elements.
Qed.

Lemma elem_of_sorted_set_int (x : Z) (xs : list Z) : x ∈ sorted_set_int xs ↔ x ∈ xs.
Proof.
  unfold sorted_set_int. rewrite merge_sort_Permutation, elem_of_elements.
  apply elem_of_list_to_set.
Qed.

Lemma sorted_set_int_nil : sorted_set_int [] = [].
Proof. reflexivity. Qed.

(** ** The graph model *)

Lemma elem_of_directly_import (graph : ImportGraph) (module m : string) :
  m ∈ find_modules_that_directly_import graph module ↔ (m, module) ∈ dom graph.
Proof.
  unfold find_modules_that_directly_import. rewrite elem_of_map. split.
  - intros [[x y] [-> [Hy Hd]%elem_of_filter]]. simpl in *. by subst.
  - intros Hd. exists (m, module). split; [done|]. by apply elem_of_filter.
Qed.

Lemma elem_of_directly_imported_by (graph : ImportGraph) (module m : string) :
  m ∈ find_modules_directly_imported_by graph module ↔ (module, m) ∈ dom graph.
Proof.
  unfold find_modules_directly_imported_by. rewrite elem_of_map. split.
  - intros [[x y] [-> [Hy Hd]%elem_of_filter]]. simpl in *. by subst.
  - intros Hd. exists (module, m). split; [done|]. by apply elem_of_filter.
Qed.

(** ** Pairs of neighbours and walks *)

Lemma pairwise_cons_cons {A} (x y : A) (l : list A) :
  pairwise (x :: y :: l) = (x, y) :: pairwise (y :: l).
Proof. reflexivity. Qed.

Lemma pairwise_length {A} (l : list A) : length (pairwise l) = length l - 1.
Proof.
  induction l as [|x [|y l] IH]; [done..|].
  rewrite pairwise_cons_cons. simpl in *. lia.
Qed.

Lemma pairwise_snd {A} (x : A) (l : list A) : snd <$> pairwise (x :: l) = l.
Proof.
  revert x. induction l as [|y l IH]; intros x; [done|].
  rewrite pairwise_cons_cons. simpl. by rewrite IH.
Qed.

Lemma pairwise_app_r {A} (P : A * A → Prop) (l1 l2 : list A) :
  Forall P (pairwise (l1 ++ l2)) → Forall P (pairwise l2).
Proof.
  induction l1 as [|x l1 IH]; [done|].
  destruct l1 as [|y l1]; simpl app.
  - destruct l2 as [|z l2]; [done|].
    rewrite pairwise_cons_cons. by intros [_ ?]%Forall_cons.
  - rewrite pairwise_cons_cons. intros [_ ?]%Forall_cons. by apply IH.
Qed.

Lemma elem_of_pairwise_split {A} (x y : A) (l : list A) :
  (x, y) ∈ pairwise l → ∃ l1 l2, l = l1 ++ x :: y :: l2.
Proof.
  induction l as [|a [|b l] IH]; [by intros ?%elem_of_nil..|].
  rewrite pairwise_cons_cons. intros [Heq|Hin]%elem_of_cons.
  - injection Heq as -> ->. by exists [], l.
  - destruct (IH Hin) as (l1 & l2 & Hl). exists (a :: l1), l2. by rewrite Hl.
Qed.

Lemma index_pairs_cons (x : string) (l : list string) :
  (λ i, (item (x :: l) i, item (x :: l) (i + 1))) <$> seq 0 (length l)
  = pairwise (x :: l).
Proof.
  revert x. induction l as [|y l IH]; intros x; [done|].
  rewrite pairwise_cons_cons, <- IH. simpl length. simpl seq.
  rewrite <- fmap_S_seq, fmap_cons, <- list_fmap_compose.
  reflexivity.
Qed.

Lemma index_pairs_pairwise (chain : list string) : index_pairs chain = pairwise chain.
Proof.
  unfold index_pairs. destruct chain as [|x l]; [done|].
  rewrite <- index_pairs_cons. simpl length.
  by replace (S (length l) - 1) with (length l) by lia.
Qed.

Lemma remove_chain_imports (graph : ImportGraph) (chain : list string) :
  remove_chain graph chain = remove_imports graph (pairwise chain).
Proof.
  rewrite <- index_pairs_pairwise. unfold remove_chain, remove_imports, index_pairs.
  generalize (seq 0 (length chain - 1)). intros l. revert graph.
  induction l as [|i l IH]; intros graph; [done|]. simpl. by rewrite IH.
Qed.

Lemma lookup_remove_imports (graph : ImportGraph) (es : list (string * string))
    (e : string * string) :
  remove_imports graph es !! e = if decide (e ∈ es) then None else graph !! e.
Proof.
  unfold remove_imports. revert graph.
  induction es as [|e' es IH]; intros graph; cbn [foldl].
  - case_decide as H; [by apply elem_of_nil in H|done].
  - rewrite IH.
    destruct (decide (e ∈ e' :: es)) as [Hin|Hnin];
      destruct (decide (e ∈ es)) as [Hin'|Hnin']; try done.
    + apply elem_of_cons in Hin as [->|Hin]; [|done]. apply lookup_delete_eq.
    + destruct Hnin. by right.
    + apply lookup_delete_ne. intros <-. destruct Hnin. left.
Qed.

Lemma elem_of_dom_remove_imports (graph : ImportGraph) (es : list (string * string))
    (e : string * string) :
  e ∈ dom (remove_imports graph es) ↔ e ∈ dom graph ∧ e ∉ es.
Proof.
  rewrite !elem_of_dom, lookup_remove_imports.
  destruct (decide (e ∈ es)); split.
  - by intros [? [=]].
  - by intros [_ ?].
  - done.
  - by intros [? _].
Qed.

Lemma remove_imports_size (graph : ImportGraph) (es : list (string * string))
    (e : string * string) :
  e ∈ es → e ∈ dom graph → size (remove_imports graph es) < size graph.
Proof.
  intros Hes Hd. rewrite <- !(size_dom (D := gset (string * string))).
  apply subset_size. split.
  - intros x. rewrite elem_of_dom_remove_imports. by intros [? _].
  - intros Hsub. specialize (Hsub e Hd).
    apply elem_of_dom_remove_imports in Hsub. by destruct Hsub.
Qed.

Lemma is_chain_subgraph (g g' : ImportGraph) (a b : string) (c : list string) :
  dom g' ⊆ dom g → is_chain g' a b c → is_chain g a b c.
Proof.
  intros Hsub (Hh & Hl & Hlen & Hall). repeat split; try done.
  eapply Forall_impl; [done|]. intros e He. by apply Hsub.
Qed.

Lemma is_chain_first_import (g : ImportGraph) (a b : string) (c : list string) :
  is_chain g a b c → ∃ e, e ∈ pairwise c ∧ e ∈ dom g.
Proof.
  intros (_ & _ & Hlen & Hall). destruct c as [|x [|y l]]; simpl in Hlen; try lia.
  rewrite pairwise_cons_cons in Hall. apply Forall_cons in Hall as [Hxy _].
  exists (x, y). split; [|done]. rewrite pairwise_cons_cons. left.
Qed.

(** A chain that uses an import twice can be cut short. *)
Lemma repeated_import_shorter (g : ImportGraph) (c : list string) :
  Forall (λ e, e ∈ dom g) (pairwise c) → ¬ NoDup (pairwise c) →
  ∃ c', head c' = head c ∧ last c' = last c ∧ 2 ≤ length c'
        ∧ length c' < length c ∧ Forall (λ e, e ∈ dom g) (pairwise c').
Proof.
  induction c as [|x [|y m] IH]; intros Hall Hdup.
  - destruct Hdup. constructor.
  - destruct Hdup. constructor.
  - rewrite pairwise_cons_cons in Hall, Hdup.
    apply Forall_cons in Hall as [Hxy Hall].
    destruct (decide ((x, y) ∈ pairwise (y :: m))) as [Hin|Hnin].
    + destruct (elem_of_pairwise_split _ _ _ Hin) as (l1 & l2 & Hl).
      exists (x :: y :: l2). rewrite Hl in Hall |- *. repeat split.
      * by rewrite app_comm_cons, last_app_cons.
      * simpl. lia.
      * simpl. rewrite length_app. simpl. lia.
      * by apply pairwise_app_r in Hall.
    + destruct IH as (c' & Hh & Hl & Hlen & Hlt & Hall'); [done| |].
      { intros Hnd. apply Hdup. by constructor. }
      destruct c' as [|y' c']; [simpl in Hlen; lia|].
      injection Hh as ->. exists (x :: y :: c'). repeat split.
      * by rewrite !last_cons_cons in *.
      * simpl. lia.
      * simpl in *. lia.
      * rewrite pairwise_cons_cons. by constructor.
Qed.

(** A walk can be cut down to one that enters no module twice. *)
Lemma walk_without_repeats (g : ImportGraph) (b : string) (p : list string) :
  ∀ a, p ≠ [] → last p = Some b → Forall (λ e, e ∈ dom g) (pairwise (a :: p)) →
  ∃ p', p' ≠ [] ∧ last p' = Some b ∧ Forall (λ e, e ∈ dom g) (pairwise (a :: p'))
        ∧ NoDup p'.
Proof.
  induction p as [|x q IH]; intros a Hne Hlast Hall; [done|].
  destruct q as [|y q].
  - exists [x]. repeat split; try done. apply NoDup_singleton.
  - rewrite pairwise_cons_cons in Hall. apply Forall_cons in Hall as [Hax Hall].
    rewrite last_cons_cons in Hlast.
    destruct (IH x) as (q' & Hne' & Hlast' & Hall' & Hnd); [done..|].
    destruct (decide (x ∈ q')) as [Hin|Hnin].
    + apply list_elem_of_split in Hin as (l1 & l2 & ->).
      exists (x :: l2). repeat split; try done.
      * by rewrite (last_app_cons l1 l2 x) in Hlast'.
      * rewrite pairwise_cons_cons. constructor; [done|].
        by apply (pairwise_app_r _ (x :: l1) (x :: l2)) in Hall'.
      * by apply NoDup_app in Hnd as (_ & _ & ?).
    + exists (x :: q'). repeat split; try done.
      * destruct q' as [|z q']; [done|]. by rewrite last_cons_cons.
      * rewrite pairwise_cons_cons. by constructor.
      * by constructor.
Qed.

(** If there is a chain at all, there is one of at most [size g] imports. *)
Lemma chain_within_bound (g : ImportGraph) (a b : string) (c : list string) :
  is_chain g a b c → ∃ c', is_chain g a b c' ∧ length c' ≤ S (size g).
Proof.
  intros (Hh & Hl & Hlen & Hall).
  destruct c as [|x p]; [done|]. injection Hh as ->.
  destruct p as [|y p]; [simpl in Hlen; lia|].
  rewrite last_cons_cons in Hl.
  destruct (walk_without_repeats g b (y :: p) a) as (p' & Hne & Hl' & Hall' & Hnd);
    [done..|].
  exists (a :: p'). split.
  - repeat split; try done.
    + destruct p' as [|z p']; [done|]. by rewrite last_cons_cons.
    + destruct p'; [done|]. simpl. lia.
  - assert (NoDup (pairwise (a :: p'))) as Hnd'.
    { apply (NoDup_fmap_1 snd). by rewrite pairwise_snd. }
    assert (length (pairwise (a :: p')) ≤ size g) as Hle.
    { rewrite <- (size_dom (D := gset (string * string))).
      rewrite <- (size_list_to_set (C := gset (string * string))) by done.
      apply subseteq_size. intros e He%elem_of_list_to_set.
      by eapply Forall_forall in Hall'. }
    rewrite pairwise_length in Hle. simpl in *. lia.
Qed.

(** ** The search by increasing length is a shortest-chain finder *)

Lemma first_some_Some {A B} (f : A → option B) (l : list A) (y : B) :
  first_some f l = Some y → ∃ x, x ∈ l ∧ f x = Some y.
Proof.
  induction l as [|x l IH]; simpl; [done|].
  destruct (f x) as [y'|] eqn:Hfx.
  - intros [= ->]. exists x. split; [left|done].
  - intros (x' & ? & ?)%IH. exists x'. split; [by right|done].
Qed.

Lemma first_some_is_Some {A B} (f : A → option B) (l : list A) (x : A) :
  x ∈ l → is_Some (f x) → is_Some (first_some f l).
Proof.
  induction l as [|x' l IH]; simpl; [by intros ?%elem_of_nil|].
  intros [->|Hin]%elem_of_cons Hx.
  - destruct Hx as [y ->]. by eexists.
  - destruct (f x'); [by eexists|]. by apply IH.
Qed.

Lemma first_some_seq_least {B} (f : nat → option B) (s n : nat) (y : B) :
  first_some f (seq s n) = Some y →
  ∃ k, s ≤ k < s + n ∧ f k = Some y ∧ ∀ j, s ≤ j < k → f j = None.
Proof.
  revert s. induction n as [|n IH]; intros s; simpl; [done|].
  destruct (f s) as [y'|] eqn:Hfs.
  - intros [= ->]. exists s. repeat split; [lia..|done|]. intros j ?. lia.
  - intros (k & Hk & Hfk & Hleast)%IH. exists k. repeat split; [lia..|done|].
    intros j Hj. destruct (decide (j = s)) as [->|]; [done|]. apply Hleast. lia.
Qed.

Lemma chain_of_length_sound (g : ImportGraph) (b : string) (k : nat) :
  ∀ a c, chain_of_length g k a b = Some c → is_walk g k a b c.
Proof.
  induction k as [|k IH]; intros a c; simpl.
  - case_decide as Hab; [|done]. intros [= <-]. subst. repeat split. constructor.
  - intros (m & Hm & Hc)%first_some_Some.
    apply elem_of_sorted_str, elem_of_elements, elem_of_directly_imported_by in Hm.
    destruct (chain_of_length g k m b) as [c'|] eqn:Hc'; [|done].
    injection Hc as <-. destruct (IH _ _ Hc') as (Hh & Hl & Hlen & Hall).
    destruct c' as [|m' c']; [done|]. injection Hh as ->.
    repeat split.
    + by rewrite last_cons_cons.
    + simpl in *. lia.
    + rewrite pairwise_cons_cons. by constructor.
Qed.

Lemma chain_of_length_complete (g : ImportGraph) (b : string) (k : nat) :
  ∀ a c, is_walk g k a b c → is_Some (chain_of_length g k a b).
Proof.
  induction k as [|k IH]; intros a c (Hh & Hl & Hlen & Hall); simpl.
  - destruct c as [|x [|y c]]; try done. injection Hh as ->. injection Hl as ->.
    rewrite decide_True by done. by eexists.
  - destruct c as [|x [|m c]]; try done. injection Hh as ->.
    rewrite pairwise_cons_cons in Hall. apply Forall_cons in Hall as [Ham Hall].
    apply (first_some_is_Some _ _ m).
    + by apply elem_of_sorted_str, elem_of_elements, elem_of_directly_imported_by.
    + destruct (IH m (m :: c)) as [c' ->]; [|by eexists].
      repeat split; try done; try (by rewrite last_cons_cons in Hl).
      simpl in *. lia.
Qed.

Lemma search_shortest_chain_Some (g : ImportGraph) (a b : string) (c : list string) :
  search_shortest_chain g a b = Some c →
  is_chain g a b c ∧ ∀ c', is_chain g a b c' → length c ≤ length c'.
Proof.
  unfold search_shortest_chain.
  intros (k & Hk & Hc & Hleast)%first_some_seq_least.
  apply chain_of_length_sound in Hc as (Hh & Hl & Hlen & Hall).
  split; [repeat split; try done; lia|].
  intros c' (Hh' & Hl' & Hlen' & Hall').
  destruct (decide (length c ≤ length c')) as [|Hlt]; [done|].
  assert (is_Some (chain_of_length g (S (length c' - 2)) a b)) as [? Hsome].
  { apply (chain_of_length_complete _ _ _ _ c'). repeat split; try done. lia. }
  rewrite Hleast in Hsome; [done|lia].
Qed.

Lemma search_shortest_chain_None (g : ImportGraph) (a b : string) (c : list string) :
  search_shortest_chain g a b = None → ¬ is_chain g a b c.
Proof.
  intros Hnone Hc.
  destruct (chain_within_bound _ _ _ _ Hc) as (c' & (Hh & Hl & Hlen & Hall) & Hle).
  assert (is_Some (search_shortest_chain g a b)) as [? Hsome]; [|congruence].
  unfold search_shortest_chain.
  apply (first_some_is_Some _ _ (length c' - 2)).
  - apply elem_of_seq. lia.
  - apply (chain_of_length_complete _ _ _ _ c'). repeat split; try done. lia.
Qed.

#[export] Instance search_finder : ShortestChainFinder := {|
  find_shortest_chain := search_shortest_chain;
  find_shortest_chain_is_chain g a b c H := proj1 (search_shortest_chain_Some g a b c H);
  find_shortest_chain_shortest g a b c c' H := proj2 (search_shortest_chain_Some g a b c H) c';
  find_shortest_chain_none := search_shortest_chain_None
|}.

(** ** Chain extraction *)

Section extraction_properties.
Context `{finder : ShortestChainFinder}.
Implicit Types (graph final : ImportGraph) (importer imported : string).

Lemma pop_shortest_chain_Some graph importer imported chain graph' :
  pop_shortest_chain graph importer imported = Some (chain, graph') →
  find_shortest_chain graph importer imported = Some chain
  ∧ graph' = remove_chain graph chain.
Proof.
  unfold pop_shortest_chain.
  destruct (find_shortest_chain graph importer imported) as [[|x l]|]; try done.
  by intros [= <- <-].
Qed.

Lemma pop_shortest_chain_None graph importer imported c :
  pop_shortest_chain graph importer imported = None →
  ¬ is_chain graph importer imported c.
Proof.
  unfold pop_shortest_chain.
  destruct (find_shortest_chain graph importer imported) as [[|x l]|] eqn:Hfind;
    try done; intros _.
  - apply find_shortest_chain_is_chain in Hfind as (_ & _ & Hlen & _).
    simpl in Hlen. lia.
  - by apply find_shortest_chain_none.
Qed.

Lemma pop_shortest_chain_size graph importer imported chain graph' :
  pop_shortest_chain graph importer imported = Some (chain, graph') →
  size graph' < size graph.
Proof.
  intros [Hfind ->]%pop_shortest_chain_Some.
  apply find_shortest_chain_is_chain, is_chain_first_import in Hfind as (e & ? & ?).
  rewrite remove_chain_imports. by eapply remove_imports_size.
Qed.

Lemma pop_run_exists graph importer imported :
  ∃ chains final, pop_run importer imported graph chains final.
Proof.
  remember (size graph) as n eqn:Hn. revert graph Hn.
  induction (lt_wf n) as [n _ IH]. intros graph ->.
  destruct (pop_shortest_chain graph importer imported) as [[chain graph']|] eqn:Hpop.
  - destruct (IH (size graph')) with (graph := graph') as (chains & final & Hrun);
      [by eapply pop_shortest_chain_size|done|].
    exists (chain :: chains), final. by econstructor.
  - exists [], graph. by constructor.
Qed.

Lemma pop_run_length graph importer imported chains final :
  pop_run importer imported graph chains final →
  length chains + size final ≤ size graph.
Proof.
  induction 1 as [|graph chain graph' chains final Hpop _ IH]; simpl; [lia|].
  apply pop_shortest_chain_size in Hpop. lia.
Qed.

Lemma pop_run_loop fuel graph importer imported chains final :
  pop_run importer imported graph chains final → length chains < fuel →
  pop_shortest_chains_loop fuel graph importer imported = Some (chains, final).
Proof.
  intros Hrun. revert fuel.
  induction Hrun as [graph Hpop|graph chain graph' chains final Hpop _ IH];
    intros [|fuel] Hfuel; simpl in *; try lia; rewrite Hpop; [done|].
  rewrite IH by lia. done.
Qed.

Lemma pop_shortest_chains_run graph importer imported :
  ∃ chains final,
    _pop_shortest_chains graph importer imported = Some (chains, final)
    ∧ pop_run importer imported graph chains final.
Proof.
  destruct (pop_run_exists graph importer imported) as (chains & final & Hrun).
  exists chains, final. split; [|done]. apply pop_run_loop; [done|].
  apply pop_run_length in Hrun. lia.
Qed.

(** More fuel than the bound changes nothing. *)
Lemma pop_shortest_chains_loop_fuel fuel graph importer imported :
  size graph < fuel →
  pop_shortest_chains_loop fuel graph importer imported
  = _pop_shortest_chains graph importer imported.
Proof.
  intros Hfuel.
  destruct (pop_shortest_chains_run graph importer imported)
    as (chains & final & -> & Hrun).
  apply pop_run_loop; [done|]. apply pop_run_length in Hrun. lia.
Qed.

Lemma shortest_chain_no_repeated_import graph importer imported chain :
  find_shortest_chain graph importer imported = Some chain →
  NoDup (pairwise chain).
Proof.
  intros Hfind. destruct (decide (NoDup (pairwise chain))) as [|Hdup]; [done|].
  pose proof (find_shortest_chain_is_chain _ _ _ _ Hfind) as (Hh & Hl & Hlen & Hall).
  destruct (repeated_import_shorter graph chain Hall Hdup)
    as (c' & Hh' & Hl' & Hlen' & Hlt & Hall').
  assert (is_chain graph importer imported c') as Hc'.
  { repeat split; [congruence..|done|done]. }
  apply (find_shortest_chain_shortest _ _ _ _ _ Hfind) in Hc'. lia.
Qed.

Lemma pop_run_discovered graph importer imported chains final :
  pop_run importer imported graph chains final →
  discovered_in_turn importer imported graph chains final.
Proof.
  induction 1 as [graph Hpop|graph chain graph' chains final Hpop _ IH]; simpl.
  - split; [done|]. intros c. by apply pop_shortest_chain_None.
  - apply pop_shortest_chain_Some in Hpop as [Hfind ->].
    split; [done|]. split; [by apply find_shortest_chain_is_chain|].
    split; [intros c; by apply find_shortest_chain_shortest|].
    split; [|done]. intros e. rewrite remove_chain_imports.
    apply elem_of_dom_remove_imports.
Qed.

Lemma pop_run_removed graph importer imported chains final :
  pop_run importer imported graph chains final →
  NoDup (removed_imports chains)
  ∧ Forall (is_chain graph importer imported) chains
  ∧ final = remove_imports graph (removed_imports chains)
  ∧ ∀ c, ¬ is_chain final importer imported c.
Proof.
  unfold removed_imports.
  induction 1 as [graph Hpop|graph chain graph' chains final Hpop _ IH]; simpl.
  - repeat split; [constructor|constructor|]. intros c.
    by apply pop_shortest_chain_None.
  - destruct IH as (Hnd & Hchains & Hfinal & Hnone).
    apply pop_shortest_chain_Some in Hpop as [Hfind ->].
    rewrite remove_chain_imports in *.
    assert (dom (remove_imports graph (pairwise chain)) ⊆ dom graph) as Hsub.
    { intros e. rewrite elem_of_dom_remove_imports. by intros [? _]. }
    repeat split; try done.
    + apply NoDup_app. split; [by eapply shortest_chain_no_repeated_import|].
      split; [|done]. intros e He Hin.
      apply list_elem_of_join in Hin as (es & Hin & Hes).
      apply list_elem_of_fmap in Hes as (c & -> & Hc).
      rewrite Forall_forall in Hchains. destruct (Hchains c Hc) as (_ & _ & _ & Hall).
      rewrite Forall_forall in Hall. specialize (Hall e Hin).
      apply elem_of_dom_remove_imports in Hall. by destruct Hall.
    + constructor; [by apply find_shortest_chain_is_chain|].
      eapply Forall_impl; [done|]. intros c. by apply is_chain_subgraph.
    + rewrite Hfinal. unfold remove_imports. by rewrite foldl_app.
Qed.

End extraction_properties.

(** ** [find_segments] *)

Lemma segment_of_chain_length (reference_graph : ImportGraph) (chain : list string) :
  length (segment_of_chain reference_graph chain) = length chain - 1.
Proof.
  unfold segment_of_chain.
  by rewrite length_fmap, index_pairs_pairwise, pairwise_length.
Qed.

Section find_segments_properties.
Context `{finder : ShortestChainFinder}.
Implicit Types (graph reference_graph final : ImportGraph) (importer imported : string).

Lemma find_segments_loop_segments fuel graph reference_graph importer imported
    chains final segments :
  pop_run importer imported graph chains final → length chains < fuel →
  Forall (λ c, length c ≠ 2) chains →
  find_segments_loop fuel graph reference_graph importer imported segments
  = Some (inr (segments ++ (segment_of_chain reference_graph <$> chains)), final).
Proof.
  intros Hrun. revert fuel segments.
  induction Hrun as [graph Hpop|graph chain graph' chains final Hpop _ IH];
    intros [|fuel] segments Hfuel Hall; simpl in *; try lia; rewrite Hpop.
  - by rewrite app_nil_r.
  - apply Forall_cons in Hall as [Hne Hall].
    rewrite decide_False by done. rewrite IH by (done || lia).
    by rewrite <- app_assoc.
Qed.

Lemma find_segments_loop_raises fuel graph reference_graph importer imported
    chains final segments :
  pop_run importer imported graph chains final → length chains < fuel →
  Exists (λ c, length c = 2) chains →
  ∃ graph', find_segments_loop fuel graph reference_graph importer imported segments
            = Some (raise direct_chain_error, graph').
Proof.
  intros Hrun. revert fuel segments.
  induction Hrun as [graph Hpop|graph chain graph' chains final Hpop _ IH];
    intros [|fuel] segments Hfuel Hex; simpl in *; try lia;
    try (by apply Exists_nil in Hex); rewrite Hpop.
  destruct (decide (length chain = 2)) as [|Hne]; [by eexists|].
  apply IH; [lia|]. apply Exists_cons in Hex as [?|?]; done.
Qed.

End find_segments_properties.

(** ** The claims on chain extraction *)

(** C1, as stated, fails: on [detour_graph] the loop removes the chain
    [a -> x -> b] and stops, for nothing leads to [b] any more; the imports
    [a -> y] and [y -> x], which lay on the chain [a -> y -> x -> b] of the
    original graph, are never removed. *)
Lemma removes_every_chain_import_fails :
  ¬ @removes_every_chain_import search_finder detour_graph "a" "b".
Proof.
  intros Hclaim. destruct Hclaim as (chains & final & Hpop & Hiff & _).
  { rewrite elem_of_dom. vm_compute. by intros [? [=]]. }
  vm_compute in Hpop. injection Hpop as <- _.
  assert (("a", "y") ∈ removed_imports [["a"; "x"; "b"]]) as Hin.
  { apply Hiff. exists ["a"; "y"; "x"; "b"]. split.
    - repeat split; [simpl; lia|].
      repeat constructor; rewrite elem_of_dom; vm_compute; by eexists.
    - rewrite pairwise_cons_cons. left. }
  vm_compute in Hin.
  repeat (apply elem_of_cons in Hin as [[=]|Hin]). by apply elem_of_nil in Hin.
Qed.

(** C1, amended: for every graph and pair of modules the loop ends; no
    import is removed twice, so the yielded chains share no import; every
    removed import lies on an importer-to-imported chain of the original
    graph; the graph left has exactly the other imports, and no
    importer-to-imported chain. *)
Theorem pop_shortest_chains_disjoint_chains `{finder : ShortestChainFinder}
    (graph : ImportGraph) (importer imported : string) :
  ∃ chains final,
    _pop_shortest_chains graph importer imported = Some (chains, final)
    ∧ NoDup (removed_imports chains)
    ∧ (∀ e, e ∈ removed_imports chains → on_some_chain graph importer imported e)
    ∧ (∀ e, e ∈ dom final ↔ e ∈ dom graph ∧ e ∉ removed_imports chains)
    ∧ (∀ c, ¬ is_chain final importer imported c).
Proof.
  destruct (pop_shortest_chains_run graph importer imported)
    as (chains & final & Hpop & Hrun).
  exists chains, final. split; [done|].
  destruct (pop_run_removed _ _ _ _ _ Hrun) as (Hnd & Hchains & -> & Hnone).
  split; [done|]. split; [|split; [|done]].
  - intros e (es & He & (c & -> & Hc)%list_elem_of_fmap)%list_elem_of_join.
    exists c. split; [|done]. by eapply Forall_forall in Hchains.
  - intros e. apply elem_of_dom_remove_imports.
Qed.

(** C2: for every graph and pair of modules the generator yields finitely
    many chains; each is the collaborator's answer on the graph as it is at
    that moment, hence a shortest chain of it; the graph the next query sees
    has none of that chain's imports; the sequence ends on a graph that has
    no importer-to-imported chain, and not before. *)
Theorem pop_shortest_chains_shortest_first `{finder : ShortestChainFinder}
    (graph : ImportGraph) (importer imported : string) :
  ∃ chains final,
    _pop_shortest_chains graph importer imported = Some (chains, final)
    ∧ discovered_in_turn importer imported graph chains final.
Proof.
  destruct (pop_shortest_chains_run graph importer imported)
    as (chains & final & Hpop & Hrun).
  exists chains, final. split; [done|]. by apply pop_run_discovered.
Qed.

(** C3: [find_segments] always returns or raises; if one of the chains the
    generator discovers has exactly two modules it raises [ValueError]; and
    if it returns, its segments are those of all the chains of the run, each
    chain has at least three modules and each segment at least two links. *)
Theorem find_segments_direct_chain `{finder : ShortestChainFinder}
    (graph reference_graph : ImportGraph) (importer imported : Module_) :
  ∃ chains final,
    _pop_shortest_chains graph (name importer) (name imported) = Some (chains, final)
    ∧ is_Some (find_segments graph reference_graph importer imported)
    ∧ (Exists (λ c, length c = 2) chains →
       ∃ graph', find_segments graph reference_graph importer imported
                 = Some (raise direct_chain_error, graph'))
    ∧ (∀ segments graph',
         find_segments graph reference_graph importer imported
         = Some (inr segments, graph') →
         segments = (segment_of_chain reference_graph <$> chains)
         ∧ graph' = final
         ∧ Forall (λ c, 3 ≤ length c) chains
         ∧ Forall (λ segment, 2 ≤ length segment) segments).
Proof.
  destruct (pop_shortest_chains_run graph (name importer) (name imported))
    as (chains & final & Hpop & Hrun).
  exists chains, final. split; [done|].
  pose proof (pop_run_length _ _ _ _ _ Hrun) as Hlen.
  destruct (pop_run_removed _ _ _ _ _ Hrun) as (_ & Hchains & _ & _).
  unfold find_segments.
  destruct (decide (Exists (λ c, length c = 2) chains)) as [Hex|Hnex].
  - destruct (find_segments_loop_raises (S (size graph)) graph reference_graph
                _ _ chains final [] Hrun) as [graph' Hraise]; [lia|done|].
    rewrite Hraise. split; [by eexists|]. split; [by eexists|]. by intros.
  - apply not_Exists_Forall in Hnex; [|intros c; apply _].
    assert (∀ c, c ∈ chains → length c ≠ 2) as Hne.
    { rewrite Forall_forall in Hnex. intros c Hc. by apply (Hnex c). }
    rewrite (find_segments_loop_segments (S (size graph)) graph reference_graph
               _ _ chains final [] Hrun); [|lia|by apply Forall_forall].
    split; [by eexists|]. split.
    { intros Hex. exfalso. apply Exists_exists in Hex as (c & Hc & Hc2).
      by apply (Hne c). }
    intros segments graph' [= <- <-]. simpl. split; [done|]. split; [done|].
    assert (Forall (λ c : list string, 3 ≤ length c) chains) as Hthree.
    { apply Forall_forall. intros c Hc. specialize (Hne c Hc).
      rewrite Forall_forall in Hchains.
      destruct (Hchains c Hc) as (_ & _ & ? & _). lia. }
    split; [done|]. apply Forall_fmap. eapply Forall_impl; [done|].
    intros c Hc. simpl in *. rewrite segment_of_chain_length. lia.
Qed.

(** ** Segment collapsing *)

Lemma StronglySorted_filter {A} (R : relation A) (P : A → Prop)
    `{∀ x, Decision (P x)} (l : list A) :
  StronglySorted R l → StronglySorted R (filter P l).
Proof.
  induction 1 as [|x l _ IH Hx]; [constructor|].
  rewrite filter_cons. case_decide; [|done]. constructor; [done|].
  apply Forall_forall. intros y [_ Hy]%list_elem_of_filter.
  by eapply Forall_forall in Hx.
Qed.

Lemma is_expansion_unique (P : string → Prop) (l1 l2 : list string) :
  is_expansion P l1 → is_expansion P l2 → l1 = l2.
Proof.
  intros (Hs1 & Hn1 & Hm1) (Hs2 & Hn2 & Hm2).
  apply (StronglySorted_unique str_le); [done..|].
  apply NoDup_Permutation; [done..|]. intros m. by rewrite Hm1, Hm2.
Qed.

Lemma is_expansion_sorted_filter (family : Module_) (X : gset string) :
  is_expansion (λ m, m ∈ X ∧ in_family family m = true)
               (filter (λ m, in_family family m = true) (sorted_str (elements X))).
Proof.
  split; [|split].
  - apply StronglySorted_filter, sorted_str_sorted.
  - apply NoDup_filter, sorted_str_NoDup, NoDup_elements.
  - intros m. rewrite list_elem_of_filter, elem_of_sorted_str, elem_of_elements.
    tauto.
Qed.

Lemma is_expansion_iff (P Q : string → Prop) (l : list string) :
  is_expansion P l → (∀ m, P m ↔ Q m) → is_expansion Q l.
Proof.
  intros (? & ? & Hm) HPQ. split; [done|]. split; [done|].
  intros m. by rewrite Hm.
Qed.

Lemma head_expansion_sorted_filter (graph : ImportGraph) (importer : Module_)
    (boundary : string) :
  is_expansion (head_candidate graph importer boundary)
    (filter (λ m, in_family importer m = true)
       (sorted_str (elements (find_modules_that_directly_import graph boundary)))).
Proof.
  eapply is_expansion_iff; [apply is_expansion_sorted_filter|].
  intros m. unfold head_candidate. by rewrite elem_of_directly_import.
Qed.

Lemma tail_expansion_sorted_filter (graph : ImportGraph) (imported : Module_)
    (boundary : string) :
  is_expansion (tail_candidate graph imported boundary)
    (filter (λ m, in_family imported m = true)
       (sorted_str (elements (find_modules_directly_imported_by graph boundary)))).
Proof.
  eapply is_expansion_iff; [apply is_expansion_sorted_filter|].
  intros m. unfold tail_candidate. by rewrite elem_of_directly_imported_by.
Qed.

Lemma head_imports_expansion (graph : ImportGraph) (importer : Module_)
    (boundary : string) (l : list string) :
  is_expansion (head_candidate graph importer boundary) l →
  head_imports graph importer boundary = (λ m, link_of graph m boundary) <$> l.
Proof.
  intros Hl. unfold head_imports, link_of. f_equal.
  eapply is_expansion_unique; [apply head_expansion_sorted_filter|done].
Qed.

Lemma tail_imports_expansion (graph : ImportGraph) (imported : Module_)
    (boundary : string) (l : list string) :
  is_expansion (tail_candidate graph imported boundary) l →
  tail_imports graph imported boundary = (λ m, link_of graph boundary m) <$> l.
Proof.
  intros Hl. unfold tail_imports, link_of. f_equal.
  eapply is_expansion_unique; [apply tail_expansion_sorted_filter|done].
Qed.

Lemma head_expansion_exists (graph : ImportGraph) (importer : Module_) (boundary : string) :
  ∃ l, is_expansion (head_candidate graph importer boundary) l.
Proof. eexists. apply head_expansion_sorted_filter. Qed.

Lemma tail_expansion_exists (graph : ImportGraph) (imported : Module_) (boundary : string) :
  ∃ l, is_expansion (tail_candidate graph imported boundary) l.
Proof. eexists. apply tail_expansion_sorted_filter. Qed.

(** What the loop body does with a non-empty segment, by the expansions of
    its two boundaries. *)
Lemma collapse_segment_cons (graph : ImportGraph) (importer imported : Module_)
    (first : Link.t) (rest : Chain) (hs ts : list string) :
  is_expansion (head_candidate graph importer (Link.imported first)) hs →
  is_expansion (tail_candidate graph imported (Link.importer (List.last rest first))) ts →
  collapse_segment graph importer imported (first :: rest)
  = match hs, ts with
    | h :: hs', t :: ts' =>
        inr (DetailedChain.Build
               ([link_of graph h (Link.imported first)] ++ py_inner (first :: rest)
                ++ [link_of graph (Link.importer (List.last rest first)) t])
               ((λ m, link_of graph m (Link.imported first)) <$> hs')
               ((λ m, link_of graph (Link.importer (List.last rest first)) m) <$> ts'))
    | _, _ => inl IndexError
    end.
Proof.
  intros Hhs Hts. unfold collapse_segment. cbn [py_first py_last].
  unfold mbind, result_mbind, mret, result_mret. cbn [result_bind].
  rewrite (head_imports_expansion _ _ _ _ Hhs), (tail_imports_expansion _ _ _ _ Hts).
  by destruct hs, ts.
Qed.

Lemma collapse_segment_error (graph : ImportGraph) (importer imported : Module_)
    (segment : Chain) (e : PyError) :
  collapse_segment graph importer imported segment = inl e → e = IndexError.
Proof.
  destruct segment as [|first rest]; [by intros [= <-]|].
  destruct (head_expansion_exists graph importer (Link.imported first)) as [hs Hhs].
  destruct (tail_expansion_exists graph imported (Link.importer (List.last rest first)))
    as [ts Hts].
  rewrite (collapse_segment_cons _ _ _ _ _ _ _ Hhs Hts).
  destruct hs, ts; by intros [= <-].
Qed.

Lemma collapse_segment_collapses_to (graph : ImportGraph) (importer imported : Module_)
    (segment : Chain) (detailed : DetailedChain.t) :
  collapse_segment graph importer imported segment = inr detailed
  ↔ collapses_to graph importer imported segment detailed.
Proof.
  split.
  - destruct segment as [|first rest]; [done|].
    destruct (head_expansion_exists graph importer (Link.imported first)) as [hs Hhs].
    destruct (tail_expansion_exists graph imported (Link.importer (List.last rest first)))
      as [ts Hts].
    rewrite (collapse_segment_cons _ _ _ _ _ _ _ Hhs Hts).
    destruct hs as [|h hs], ts as [|t ts]; try done. intros [= <-].
    by exists first, rest, h, hs, t, ts.
  - intros (first & rest & h & hs & t & ts & -> & Hhs & Hts & ->).
    by rewrite (collapse_segment_cons _ _ _ _ _ _ _ Hhs Hts).
Qed.

Lemma result_mapM_inr {A B} (f : A → Result B) (xs : list A) (ys : list B) :
  result_mapM f xs = inr ys ↔ Forall2 (λ x y, f x = inr y) xs ys.
Proof.
  revert ys. induction xs as [|x xs IH]; intros ys; simpl.
  - split; [by intros [= <-]; constructor|by intros ->%Forall2_nil_inv_l].
  - unfold mbind, result_mbind, mret, result_mret. simpl. split.
    + destruct (f x) as [e|y] eqn:Hfx; [done|]. simpl.
      destruct (result_mapM f xs) as [e|ys'] eqn:Hxs; [done|]. simpl.
      intros [= <-]. constructor; [done|]. by apply IH.
    + intros (y & ys' & Hfx & Hxs & ->)%Forall2_cons_inv_l.
      rewrite Hfx. simpl. apply IH in Hxs. by rewrite Hxs.
Qed.

Lemma result_mapM_raises {A B} (f : A → Result B) (xs : list A) (x : A) (e : PyError) :
  (∀ x' e', f x' = inl e' → e' = e) → x ∈ xs → f x = inl e →
  result_mapM f xs = inl e.
Proof.
  intros Honly Hin Hfx. induction xs as [|x' xs IH]; [by apply elem_of_nil in Hin|].
  simpl. unfold mbind, result_mbind. simpl.
  destruct (f x') as [e'|y] eqn:Hfx'; simpl.
  - f_equal. by eapply Honly.
  - apply elem_of_cons in Hin as [->|Hin]; [congruence|]. by rewrite IH.
Qed.

Lemma is_expansion_least (P : string → Prop) (h : string) (hs : list string) :
  is_expansion P (h :: hs) → ∀ m, P m → str_le h m.
Proof.
  intros (Hsorted & _ & Hm) m [->|Hin]%Hm%elem_of_cons; [done|].
  apply StronglySorted_inv in Hsorted as [_ Hall].
  by eapply Forall_forall in Hall.
Qed.

Lemma is_expansion_nil (P : string → Prop) : (∀ m, ¬ P m) → is_expansion P [].
Proof.
  intros HP. split; [constructor|]. split; [constructor|].
  intros m. split; [by intros ?%elem_of_nil|]. by intros ?%HP.
Qed.

(** ** The claims on segment collapsing *)

(** C4: [segments_to_collapsed_chains] returns a list of detailed chains
    exactly when each segment collapses to the chain at its place: the head
    boundary [segment[0].imported] is expanded over the modules that directly
    import it and are the importer or a descendant of it, in lexicographic
    order, the first being the least and giving the first link of the chain,
    the others the extra firsts; likewise for the tail boundary
    [segment[-1].importer]; and the chain is the primary head link, then
    [segment[1:-1]], then the primary tail link. *)
Theorem segments_to_collapsed_chains_expansion (graph : ImportGraph)
    (segments : list Chain) (importer imported : Module_)
    (collapsed : list DetailedChain.t) :
  (segments_to_collapsed_chains graph segments importer imported = inr collapsed
   ↔ Forall2 (collapses_to graph importer imported) segments collapsed)
  ∧ (∀ boundary h hs m,
       is_expansion (head_candidate graph importer boundary) (h :: hs) →
       head_candidate graph importer boundary m → str_le h m)
  ∧ (∀ boundary t ts m,
       is_expansion (tail_candidate graph imported boundary) (t :: ts) →
       tail_candidate graph imported boundary m → str_le t m).
Proof.
  split; [|split].
  - unfold segments_to_collapsed_chains. rewrite result_mapM_inr.
    split; intros Hall; (eapply Forall2_impl; [exact Hall|]);
      intros segment detailed; by rewrite collapse_segment_collapses_to.
  - intros boundary h hs m Hexp. by apply (is_expansion_least _ h hs).
  - intros boundary t ts m Hexp. by apply (is_expansion_least _ t ts).
Qed.

(** The example of the specification: the chain [a, c.d, e.f, z], importer
    family [a], imported family [z]. *)
Example segments_to_collapsed_chains_example :
  segments_to_collapsed_chains example_graph
    [segment_of_chain example_graph ["a"; "c.d"; "e.f"; "z"]] (Module "a") (Module "z")
  = inr [DetailedChain.Build
           [Link.Build "a.b" "c.d" [Some 3%Z]; Link.Build "c.d" "e.f" [Some 7%Z];
            Link.Build "e.f" "z" [Some 9%Z]] [] []].
Proof. vm_compute. reflexivity. Qed.

(** C6, as stated, fails: the collapsing stage has no check on the length of
    a segment.  Given the direct import [a -> b] as a segment it returns a
    detailed chain made of the head link and the tail link. *)
Lemma rejects_single_link_segments_fails :
  ¬ rejects_single_link_segments direct_graph [[Link.Build "a" "b" [Some 1%Z]]]
      (Module "a") (Module "b").
Proof.
  intros Hclaim. destruct Hclaim as [e He].
  - eexists. split; [left|done].
  - vm_compute in He. discriminate He.
Qed.

(** C6, amended: a segment of a single link whose import is in the graph,
    with its importer in the importer family and its imported module in the
    imported family, is collapsed without any error into a chain of two
    links, the primary head link and the primary tail link. *)
Theorem single_link_segment_collapses (graph : ImportGraph)
    (importer imported : Module_) (link : Link.t) :
  (Link.importer link, Link.imported link) ∈ dom graph →
  in_family importer (Link.importer link) = true →
  in_family imported (Link.imported link) = true →
  ∃ h hs t ts,
    is_expansion (head_candidate graph importer (Link.imported link)) (h :: hs)
    ∧ is_expansion (tail_candidate graph imported (Link.importer link)) (t :: ts)
    ∧ segments_to_collapsed_chains graph [[link]] importer imported
      = inr [DetailedChain.Build
               [link_of graph h (Link.imported link);
                link_of graph (Link.importer link) t]
               ((λ m, link_of graph m (Link.imported link)) <$> hs)
               ((λ m, link_of graph (Link.importer link) m) <$> ts)].
Proof.
  intros Hin Himporter Himported.
  destruct (head_expansion_exists graph importer (Link.imported link)) as [hs Hhs].
  destruct (tail_expansion_exists graph imported (Link.importer link)) as [ts Hts].
  destruct hs as [|h hs].
  { destruct Hhs as (_ & _ & Hm).
    assert (Link.importer link ∈ @nil string) as []%elem_of_nil. by apply Hm. }
  destruct ts as [|t ts].
  { destruct Hts as (_ & _ & Hm).
    assert (Link.imported link ∈ @nil string) as []%elem_of_nil. by apply Hm. }
  exists h, hs, t, ts. split; [done|]. split; [done|].
  unfold segments_to_collapsed_chains. cbn [result_mapM].
  by rewrite (collapse_segment_cons graph importer imported link [] _ _ Hhs Hts).
Qed.

Lemma single_link_segment_collapses_witness :
  ∃ h hs t ts,
    is_expansion (head_candidate direct_graph (Module "a") "b") (h :: hs)
    ∧ is_expansion (tail_candidate direct_graph (Module "b") "a") (t :: ts)
    ∧ segments_to_collapsed_chains direct_graph [[Link.Build "a" "b" [Some 1%Z]]]
        (Module "a") (Module "b")
      = inr [DetailedChain.Build
               [link_of direct_graph h "b"; link_of direct_graph "a" t]
               ((λ m, link_of direct_graph m "b") <$> hs)
               ((λ m, link_of direct_graph "a" m) <$> ts)].
Proof.
  apply (single_link_segment_collapses direct_graph (Module "a") (Module "b")
           (Link.Build "a" "b" [Some 1%Z])).
  - apply elem_of_dom. vm_compute. by eexists.
  - reflexivity.
  - reflexivity.
Defined.

(** C7: if some segment of the list has a head expansion or a tail expansion
    without any candidate, [segments_to_collapsed_chains] raises
    [IndexError] and returns nothing. *)
Theorem segments_to_collapsed_chains_no_candidate (graph : ImportGraph)
    (segments : list Chain) (importer imported : Module_)
    (first : Link.t) (rest : Chain) :
  first :: rest ∈ segments →
  (∀ m, ¬ head_candidate graph importer (Link.imported first) m)
  ∨ (∀ m, ¬ tail_candidate graph imported (Link.importer (List.last rest first)) m) →
  segments_to_collapsed_chains graph segments importer imported = inl IndexError.
Proof.
  intros Hin Hnone. unfold segments_to_collapsed_chains.
  apply (result_mapM_raises _ _ (first :: rest)); [|done|].
  - intros segment e. apply collapse_segment_error.
  - destruct (head_expansion_exists graph importer (Link.imported first)) as [hs Hhs].
    destruct (tail_expansion_exists graph imported (Link.importer (List.last rest first)))
      as [ts Hts].
    rewrite (collapse_segment_cons _ _ _ _ _ _ _ Hhs Hts).
    destruct Hnone as [Hnone|Hnone].
    + rewrite (is_expansion_unique _ _ _ Hhs (is_expansion_nil _ Hnone)). done.
    + rewrite (is_expansion_unique _ _ _ Hts (is_expansion_nil _ Hnone)).
      by destruct hs.
Qed.

Lemma segments_to_collapsed_chains_no_candidate_witness :
  segments_to_collapsed_chains example_graph
    [segment_of_chain example_graph ["q"; "c.d"; "e.f"; "z"]] (Module "q") (Module "z")
  = inl IndexError.
Proof.
  apply (segments_to_collapsed_chains_no_candidate example_graph _ _ _
           (Link.Build "q" "c.d" [])
           [Link.Build "c.d" "e.f" [Some 7%Z]; Link.Build "e.f" "z" [Some 9%Z]]).
  - left.
  - left. intros m [Hm Hfam]. apply elem_of_dom in Hm.
    cbn [Link.imported] in Hm.
    assert (m ∈ find_modules_that_directly_import example_graph "c.d") as Hm'.
    { apply elem_of_directly_import. by apply elem_of_dom. }
    apply elem_of_elements in Hm'. vm_compute in Hm'.
    repeat (apply elem_of_cons in Hm' as [->|Hm']; [discriminate Hfam|]).
    by apply elem_of_nil in Hm'.
Defined.

(** ** Route-based assembly against extraction and collapsing *)

Lemma last_cons_default {A} (z : A) (l : list A) (x : A) :
  List.last (z :: l) x = List.last l z.
Proof.
  revert z x. induction l as [|w l IH]; intros z x; [done|].
  change (List.last (z :: w :: l) x) with (List.last (w :: l) x).
  by rewrite (IH w x), (IH w z).
Qed.

Lemma pairwise_snoc {A} (x : A) (l : list A) (y : A) :
  pairwise ((x :: l) ++ [y]) = pairwise (x :: l) ++ [(List.last l x, y)].
Proof.
  revert x. induction l as [|z l IH]; intros x; [done|].
  rewrite last_cons_default. specialize (IH z).
  cbn [app] in *. by rewrite !pairwise_cons_cons, IH.
Qed.

Lemma segment_of_chain_pairwise (graph : ImportGraph) (chain : list string) :
  segment_of_chain graph chain = (λ e, link_of graph e.1 e.2) <$> pairwise chain.
Proof.
  unfold segment_of_chain. rewrite index_pairs_pairwise.
  apply list_fmap_ext. by intros i [a b] _.
Qed.

Lemma last_fmap_default {A B} (f : A → B) (l : list A) (d : A) :
  List.last (f <$> l) (f d) = f (List.last l d).
Proof.
  revert d. induction l as [|x l IH]; intros d; [done|].
  destruct l as [|y l]; [done|]. apply (IH d).
Qed.

Lemma collapse_segment_of_chain (graph : ImportGraph) (importer imported : Module_)
    (x m1 : string) (ms : list string) (y : string) (hs ts : list string) :
  is_expansion (head_candidate graph importer m1) hs →
  is_expansion (tail_candidate graph imported (List.last ms m1)) ts →
  collapse_segment graph importer imported
    (segment_of_chain graph (x :: m1 :: ms ++ [y]))
  = match hs, ts with
    | h :: hs', t :: ts' =>
        inr (DetailedChain.Build
               (link_of graph h m1
                  :: ((λ e, link_of graph e.1 e.2) <$> pairwise (m1 :: ms))
                  ++ [link_of graph (List.last ms m1) t])
               ((λ m, link_of graph m m1) <$> hs')
               ((λ m, link_of graph (List.last ms m1) m) <$> ts'))
    | _, _ => inl IndexError
    end.
Proof.
  intros Hhs Hts. rewrite segment_of_chain_pairwise.
  change (pairwise (x :: m1 :: ms ++ [y]))
    with ((x, m1) :: pairwise ((m1 :: ms) ++ [y])).
  rewrite pairwise_snoc, fmap_cons, fmap_app. cbn [fmap list_fmap].
  set (first := link_of graph (x, m1).1 (x, m1).2).
  set (inner := (λ e : string * string, link_of graph e.1 e.2) <$> pairwise (m1 :: ms)).
  set (final := link_of graph (List.last ms m1, y).1 (List.last ms m1, y).2).
  assert (List.last (inner ++ [final]) first = final) as Hlast by apply last_last.
  assert (py_inner (first :: inner ++ [final]) = inner) as Hinner.
  { unfold py_inner. cbn [tail]. apply removelast_last. }
  rewrite (collapse_segment_cons graph importer imported first (inner ++ [final]) hs ts);
    rewrite ?Hlast; try done.
  by rewrite Hinner.
Qed.

Lemma result_mapM_pure {A B} (f : A → B) (xs : list A) :
  result_mapM (λ x, mret (f x)) xs = inr (f <$> xs).
Proof.
  induction xs as [|x xs IH]; [done|].
  cbn [result_mapM]. rewrite IH. reflexivity.
Qed.

Lemma route_expansions (graph : ImportGraph) (importer imported : Module_)
    (m1 : string) (ms : list string) (route : Route) :
  same_paths graph importer imported m1 ms route →
  is_expansion (head_candidate graph importer m1) (sorted_str (elements (heads route)))
  ∧ is_expansion (tail_candidate graph imported (List.last ms m1))
                 (sorted_str (elements (tails route))).
Proof.
  intros (_ & Hheads & Htails). split.
  - split; [apply sorted_str_sorted|]. split; [apply sorted_str_NoDup, NoDup_elements|].
    intros m. by rewrite elem_of_sorted_str, elem_of_elements.
  - split; [apply sorted_str_sorted|]. split; [apply sorted_str_NoDup, NoDup_elements|].
    intros m. by rewrite elem_of_sorted_str, elem_of_elements.
Qed.

Lemma build_detailed_chain_from_route_cons (graph : ImportGraph) (route : Route)
    (m1 : string) (ms : list string) :
  middle route = m1 :: ms →
  build_detailed_chain_from_route route graph
  = match sorted_str (elements (heads route)), sorted_str (elements (tails route)) with
    | h :: hs', t :: ts' =>
        inr (DetailedChain.Build
               (route_link graph h m1
                  :: ((λ e, route_link graph e.1 e.2) <$> pairwise (m1 :: ms))
                  ++ [route_link graph (List.last ms m1) t])
               ((λ m, route_link graph m m1) <$> hs')
               ((λ m, route_link graph (List.last ms m1) m) <$> ts'))
    | _, _ => inl IndexError
    end.
Proof.
  intros Hmiddle. unfold build_detailed_chain_from_route. rewrite Hmiddle.
  cbn [py_first py_last].
  unfold mbind, result_mbind at 1 2. unfold mret at 1 3, result_mret.
  cbn [result_bind].
  rewrite (result_mapM_pure (λ head, Link.Build head m1 (get_line_numbers head m1 graph))).
  rewrite (result_mapM_pure
             (λ tail, Link.Build (List.last ms m1) tail
                        (get_line_numbers (List.last ms m1) tail graph))).
  cbn [result_bind].
  destruct (sorted_str (elements (heads route))) as [|h hs'];
    destruct (sorted_str (elements (tails route))) as [|t ts']; try done.
  cbn [py_first py_from1 tail]. unfold mbind, result_mbind, mret, result_mret.
  cbn [result_bind]. do 2 f_equal.
  change (pairwise ([h] ++ (m1 :: ms) ++ [t]))
    with ((h, m1) :: pairwise ((m1 :: ms) ++ [t])).
  rewrite pairwise_snoc, fmap_cons, fmap_app.
  f_equal. f_equal.
  - apply list_fmap_ext. by intros i [a b] _.
Qed.

Lemma same_paths_computed (graph : ImportGraph) (importer imported : Module_)
    (m1 : string) (ms : list string) (route : Route) :
  middle route = m1 :: ms →
  sorted_str (elements (heads route))
  = filter (λ m, in_family importer m = true)
      (sorted_str (elements (find_modules_that_directly_import graph m1))) →
  sorted_str (elements (tails route))
  = filter (λ m, in_family imported m = true)
      (sorted_str (elements (find_modules_directly_imported_by graph (List.last ms m1)))) →
  same_paths graph importer imported m1 ms route.
Proof.
  intros Hmiddle Hheads Htails. split; [done|]. split; intros m.
  - rewrite <- elem_of_elements, <- elem_of_sorted_str, Hheads.
    apply head_expansion_sorted_filter.
  - rewrite <- elem_of_elements, <- elem_of_sorted_str, Htails.
    apply tail_expansion_sorted_filter.
Qed.

Lemma StronglySorted_lt_NoDup (l : list Z) : StronglySorted Z.lt l → NoDup l.
Proof.
  induction 1 as [|x l _ IH Hx]; constructor; [|done].
  intros Hin. eapply Forall_forall in Hx; [|done]. lia.
Qed.

Lemma StronglySorted_lt_le (l : list Z) :
  StronglySorted Z.lt l → StronglySorted Z.le l.
Proof.
  induction 1 as [|x l _ IH Hx]; constructor; [done|].
  eapply Forall_impl; [done|]. intros y. simpl. lia.
Qed.

Lemma sorted_set_int_in_order (l : list Z) :
  StronglySorted Z.lt l → sorted_set_int l = l.
Proof.
  intros Hl. apply (StronglySorted_unique Z.le).
  - apply sorted_set_int_sorted.
  - by apply StronglySorted_lt_le.
  - apply NoDup_Permutation.
    + apply sorted_set_int_NoDup.
    + by apply StronglySorted_lt_NoDup.
    + intros x. apply elem_of_sorted_set_int.
Qed.

Lemma route_link_recorded (graph : ImportGraph) (importer imported : string) :
  recorded_in_order graph (importer, imported) →
  route_link graph importer imported = link_of graph importer imported.
Proof.
  intros [Hne Hsorted]. unfold route_link, link_of, get_line_numbers. f_equal.
  simpl in *. unfold sorted_line_numbers. rewrite sorted_set_int_in_order by done.
  destruct (get_import_details graph importer imported); [done|].
  by rewrite <- list_fmap_compose.
Qed.

(** ** The claims on the two ways to a detailed chain *)

(** C5, as stated, fails: the route reports the line numbers of an import
    as the graph gives them, here [(7, 3)]; extraction and collapsing report
    them sorted, [(3, 7)]. *)
Lemma route_equals_segments_fails :
  ¬ route_equals_segments unordered_graph (Module "a") (Module "c")
      "a" "b" [] "c" unordered_route.
Proof.
  intros Hclaim.
  assert (same_paths unordered_graph (Module "a") (Module "c") "b" [] unordered_route)
    as Hsame.
  { apply same_paths_computed; [done|by vm_compute..]. }
  specialize (Hclaim Hsame
    (DetailedChain.Build
       [Link.Build "a" "b" [Some 7%Z; Some 3%Z]; Link.Build "b" "c" [Some 1%Z]] [] [])).
  destruct Hclaim as [Hclaim _].
  assert (build_detailed_chain_from_route unordered_route unordered_graph
          = inr (DetailedChain.Build
                   [Link.Build "a" "b" [Some 7%Z; Some 3%Z];
                    Link.Build "b" "c" [Some 1%Z]] [] []))
    as Hroute by (by vm_compute).
  specialize (Hclaim Hroute). vm_compute in Hclaim. discriminate Hclaim.
Qed.

(** C5, amended: when a route and an extracted chain stand for the same
    paths, route-based assembly and extraction with collapsing raise
    together; when they return, their detailed chains have the same
    importer and imported module in every link of [chain], [extra_firsts]
    and [extra_lasts]; and the detailed chains are equal, line numbers
    included, when the details of every import of the graph are recorded on
    strictly increasing lines and the middle of the route is made of imports
    of the graph. *)
Theorem route_and_segments_same_imports (graph : ImportGraph)
    (importer imported : Module_) (x m1 : string) (ms : list string) (y : string)
    (route : Route) :
  same_paths graph importer imported m1 ms route →
  let routed := build_detailed_chain_from_route route graph in
  let collapsed :=
    segments_to_collapsed_chains graph
      [segment_of_chain graph (x :: m1 :: ms ++ [y])] importer imported in
  (routed = inl IndexError ↔ collapsed = inl IndexError)
  ∧ (∀ d, routed = inr d → ∃ d', collapsed = inr [d'] ∧ same_imports d d')
  ∧ (∀ d', collapsed = inr [d'] → ∃ d, routed = inr d ∧ same_imports d d')
  ∧ ((∀ e, e ∈ dom graph → recorded_in_order graph e) →
     Forall (λ e, e ∈ dom graph) (pairwise (m1 :: ms)) →
     ∀ d, routed = inr d ↔ collapsed = inr [d]).
Proof.
  intros Hsame routed collapsed.
  destruct (route_expansions _ _ _ _ _ _ Hsame) as [Hhs Hts].
  destruct Hsame as (Hmiddle & _ & _).
  subst routed collapsed. unfold segments_to_collapsed_chains. cbn [result_mapM].
  rewrite (build_detailed_chain_from_route_cons graph route m1 ms Hmiddle).
  rewrite (collapse_segment_of_chain graph importer imported x m1 ms y _ _ Hhs Hts).
  destruct (sorted_str (elements (heads route))) as [|h hs'];
    [by repeat split; intros; try done|].
  destruct (sorted_str (elements (tails route))) as [|t ts'];
    [by repeat split; intros; try done|].
  assert (same_imports
    (DetailedChain.Build
       (route_link graph h m1
          :: ((λ e, route_link graph e.1 e.2) <$> pairwise (m1 :: ms))
          ++ [route_link graph (List.last ms m1) t])
       ((λ m, route_link graph m m1) <$> hs')
       ((λ m, route_link graph (List.last ms m1) m) <$> ts'))
    (DetailedChain.Build
       (link_of graph h m1
          :: ((λ e, link_of graph e.1 e.2) <$> pairwise (m1 :: ms))
          ++ [link_of graph (List.last ms m1) t])
       ((λ m, link_of graph m m1) <$> hs')
       ((λ m, link_of graph (List.last ms m1) m) <$> ts'))) as Hends.
  { unfold same_imports. cbn [DetailedChain.chain DetailedChain.extra_firsts
                               DetailedChain.extra_lasts].
    rewrite !fmap_cons, !fmap_app, <- !list_fmap_compose. done. }
  cbn [mbind result_mbind result_bind mret result_mret].
  split; [done|]. split; [|split].
  - intros d [= <-]. by eexists.
  - intros d' [= <-]. by eexists.
  - intros Hrecorded Hmid d.
    destruct Hhs as (_ & _ & Hhm), Hts as (_ & _ & Htm).
    assert (∀ m, m ∈ h :: hs' → route_link graph m m1 = link_of graph m m1) as Hheads.
    { intros m [Hm _]%Hhm. by apply route_link_recorded, Hrecorded. }
    assert (∀ m, m ∈ t :: ts' → route_link graph (List.last ms m1) m
                                 = link_of graph (List.last ms m1) m) as Htails.
    { intros m [Hm _]%Htm. by apply route_link_recorded, Hrecorded. }
    assert ((λ e, route_link graph e.1 e.2) <$> pairwise (m1 :: ms)
            = (λ e, link_of graph e.1 e.2) <$> pairwise (m1 :: ms)) as ->.
    { apply list_fmap_ext. intros i [a b] Hi. simpl.
      apply route_link_recorded, Hrecorded.
      eapply Forall_forall in Hmid; [done|]. by eapply list_elem_of_lookup_2. }
    assert ((λ m, route_link graph m m1) <$> hs' = (λ m, link_of graph m m1) <$> hs')
      as ->.
    { apply list_fmap_ext. intros i m Hi. apply Hheads. right.
      by eapply list_elem_of_lookup_2. }
    assert ((λ m, route_link graph (List.last ms m1) m) <$> ts'
            = (λ m, link_of graph (List.last ms m1) m) <$> ts') as ->.
    { apply list_fmap_ext. intros i m Hi. apply Htails. right.
      by eapply list_elem_of_lookup_2. }
    rewrite (Hheads h) by left. rewrite (Htails t) by left.
    split; by intros [= <-].
Qed.

Lemma route_and_segments_same_imports_witness :
  let route := {| heads := {["a.b"]}; middle := ["c.d"; "e.f"]; tails := {["z"]} |} in
  let routed := build_detailed_chain_from_route route example_graph in
  let collapsed :=
    segments_to_collapsed_chains example_graph
      [segment_of_chain example_graph ("a" :: "c.d" :: ["e.f"] ++ ["z"])]
      (Module "a") (Module "z") in
  (routed = inl IndexError ↔ collapsed = inl IndexError)
  ∧ (∀ d, routed = inr d → ∃ d', collapsed = inr [d'] ∧ same_imports d d')
  ∧ (∀ d', collapsed = inr [d'] → ∃ d, routed = inr d ∧ same_imports d d')
  ∧ ((∀ e, e ∈ dom example_graph → recorded_in_order example_graph e) →
     Forall (λ e, e ∈ dom example_graph) (pairwise ("c.d" :: ["e.f"])) →
     ∀ d, routed = inr d ↔ collapsed = inr [d]).
Proof.
  apply (route_and_segments_same_imports example_graph (Module "a") (Module "z")
           "a" "c.d" ["e.f"] "z").
  apply same_paths_computed; [reflexivity|vm_compute; reflexivity..].
Defined.

(** ** Note rendering *)

Lemma string_app_assoc (s1 s2 s3 : string) : (s1 +:+ s2) +:+ s3 = s1 +:+ s2 +:+ s3.
Proof.
  induction s1 as [|c s1 IH]; [done|].
  change (String c ((s1 +:+ s2) +:+ s3) = String c (s1 +:+ s2 +:+ s3)).
  by rewrite IH.
Qed.

Lemma foldl_snoc {A B} (f : A → B) (acc : list B) (l : list A) :
  foldl (λ notes x, notes ++ [f x]) acc l = acc ++ (f <$> l).
Proof.
  revert acc. induction l as [|x l IH]; intros acc; simpl.
  - by rewrite app_nil_r.
  - by rewrite IH, <- app_assoc.
Qed.

Lemma foldl_extend {A B} (f : A → list B) (acc : list B) (l : list A) :
  foldl (λ notes x, notes ++ f x) acc l = acc ++ mjoin (f <$> l).
Proof.
  revert acc. induction l as [|x l IH]; intros acc; simpl.
  - by rewrite app_nil_r.
  - by rewrite IH, <- app_assoc.
Qed.

Lemma foldl_extra_firsts (k : nat) (acc : list ImportNote.t) (l : list Link.t) :
  foldl (λ notes '(position, source),
           let prefix := if bool_decide (0 < position) then "& " else "" in
           let importer := Link.importer source in
           notes ++ [ImportNote.Build importer (prefix +:+ importer)
                                      (Link.line_numbers source)])
        acc (zip (seq (S k) (length l)) l)
  = acc ++ ((λ source, ImportNote.Build (Link.importer source)
                                        ("& " +:+ Link.importer source)
                                        (Link.line_numbers source)) <$> l).
Proof.
  revert k acc. induction l as [|x l IH]; intros k acc.
  - simpl. by rewrite app_nil_r.
  - cbn [length seq zip zip_with foldl]. rewrite IH.
    rewrite bool_decide_true by lia. by rewrite <- app_assoc.
Qed.

Lemma notes_from_direct_import_first (first : Link.t) (extra_firsts : list Link.t) :
  _notes_from_direct_import first (Some extra_firsts) None
  = first_link_notes first extra_firsts.
Proof.
  destruct extra_firsts as [|extra extras]; [done|].
  unfold _notes_from_direct_import, first_link_notes, enumerate.
  cbn [app length seq zip zip_with foldl]. rewrite foldl_extra_firsts.
  rewrite bool_decide_false by lia. by rewrite <- app_assoc.
Qed.

Lemma notes_from_direct_import_last (final : Link.t) (extra_lasts : list Link.t) :
  _notes_from_direct_import final None (Some extra_lasts)
  = last_link_notes final extra_lasts.
Proof.
  destruct extra_lasts as [|extra extras]; [done|].
  unfold _notes_from_direct_import, last_link_notes. by rewrite foldl_snoc.
Qed.

(** C9: on a chain with a first link, [notes_from_chain_data] begins with
    the notes of the first link: with extra firsts, the primary importer
    alone, then each extra first but the last as ["& importer"], then the
    last extra first as ["& importer -> imported"]; without extra firsts,
    ["importer -> imported"].  The interior links and the last link with its
    extra lasts follow.  On an empty chain it raises [IndexError]. *)
Theorem notes_from_chain_data_first_link (first : Link.t) (rest : Chain)
    (extra_firsts extra_lasts : list Link.t) :
  notes_from_chain_data (DetailedChain.Build (first :: rest) extra_firsts extra_lasts)
  = inr (first_link_notes first extra_firsts
         ++ (plain_note <$> py_inner (first :: rest))
         ++ match rest with
            | [] => []
            | _ :: _ => last_link_notes (List.last rest first) extra_lasts
            end)
  ∧ notes_from_chain_data (DetailedChain.Build [] extra_firsts extra_lasts)
    = inl IndexError.
Proof.
  split; [|done]. unfold notes_from_chain_data.
  cbn [DetailedChain.chain DetailedChain.extra_firsts DetailedChain.extra_lasts
       py_first py_last].
  unfold mbind, result_mbind, mret, result_mret. cbn [result_bind].
  rewrite notes_from_direct_import_first, notes_from_direct_import_last.
  rewrite (foldl_extend (λ direct_import, _notes_from_direct_import direct_import None None)).
  assert (∀ l : list Link.t,
            mjoin ((λ d, _notes_from_direct_import d None None) <$> l) = plain_note <$> l)
    as ->.
  { induction l as [|d l IH]; [done|].
    change (plain_note d :: mjoin ((λ d, _notes_from_direct_import d None None) <$> l)
            = plain_note d :: (plain_note <$> l)).
    by rewrite IH. }
  destruct rest as [|second rest].
  - by rewrite bool_decide_false by (simpl; lia).
  - rewrite bool_decide_true by (simpl; lia). cbn [result_bind].
    by rewrite <- app_assoc.
Qed.

Example notes_from_chain_data_example :
  notes_from_chain_data
    (DetailedChain.Build
       [Link.Build "a" "b" [Some 1%Z]; Link.Build "b" "c" [None]; Link.Build "c" "d" []]
       [Link.Build "a1" "b" []; Link.Build "a2" "b" [Some 2%Z; Some 5%Z]]
       [Link.Build "c" "d1" []])
  = inr [ImportNote.Build "a" "a" [Some 1%Z];
         ImportNote.Build "a1" "& a1" [];
         ImportNote.Build "a2" "& a2 -> b" [Some 2%Z; Some 5%Z];
         ImportNote.Build "b" "b -> c" [None];
         ImportNote.Build "c" "c -> d" [];
         ImportNote.Build "c" "     & d1" []].
Proof. reflexivity. Qed.

(** C8: [format_line_numbers] renders an unknown line number as [l.?] and a
    known one as [l.] followed by the number, and puts [", "] between
    entries; a link whose import has no recorded detail, with the line
    numbers [get_line_numbers] gives it, renders as ["a -> b (l.?)"]. *)
Theorem format_line_numbers_tokens :
  format_line_numbers [] = ""
  ∧ (∀ entry, format_line_numbers [entry] = format_line_number entry)
  ∧ (∀ entry next others,
       format_line_numbers (entry :: next :: others)
       = format_line_number entry +:+ ", " +:+ format_line_numbers (next :: others))
  ∧ format_line_number None = "l.?"
  ∧ (∀ n, format_line_number (Some n) = "l." +:+ str_of_int n)
  ∧ (∀ graph importer imported,
       get_import_details graph importer imported = [] →
       ImportNote.__str__
       <$> _notes_from_direct_import
             (Link.Build importer imported (get_line_numbers importer imported graph))
             None None
       = [importer +:+ " -> " +:+ imported +:+ " (l.?)"]).
Proof.
  repeat split; try done.
  intros graph importer imported Hnone.
  unfold get_line_numbers. rewrite Hnone.
  unfold _notes_from_direct_import, ImportNote.__str__.
  cbn [app fmap list_fmap ImportNote.msg ImportNote.line_numbers
       Link.importer Link.imported Link.line_numbers].
  by rewrite !string_app_assoc.
Qed.

Example format_line_numbers_example :
  format_line_numbers [None; Some 3%Z; Some 10%Z; Some 0%Z] = "l.?, l.3, l.10, l.0"
  ∧ ImportNote.__str__ (ImportNote.Build "a" "a -> b" [None]) = "a -> b (l.?)".
Proof. split; reflexivity. Qed.

(** ** Line numbers *)

Lemma StronglySorted_le_NoDup_lt (l : list Z) :
  StronglySorted Z.le l → NoDup l → StronglySorted Z.lt l.
Proof.
  induction 1 as [|x l _ IH Hx]; intros Hnd; [constructor|].
  apply NoDup_cons in Hnd as [Hnin Hnd]. constructor; [by apply IH|].
  apply Forall_forall. intros y Hy.
  assert (x ≠ y) by (by intros ->).
  eapply Forall_forall in Hx; [|done]. simpl in Hx. lia.
Qed.

Lemma sorted_line_numbers_increasing (details : list DetailedImport) :
  ∃ numbers,
    sorted_line_numbers details = Some <$> numbers
    ∧ StronglySorted Z.lt numbers
    ∧ (∀ n, n ∈ numbers ↔ n ∈ line_number <$> details)
    ∧ (details = [] → numbers = []).
Proof.
  exists (sorted_set_int (line_number <$> details)). split; [done|]. split; [|split].
  - apply StronglySorted_le_NoDup_lt;
      [apply sorted_set_int_sorted|apply sorted_set_int_NoDup].
  - intros n. apply elem_of_sorted_set_int.
  - by intros ->.
Qed.

Example get_line_numbers_example :
  get_line_numbers "a" "b" repeated_graph = [Some 7%Z; Some 3%Z; Some 7%Z]
  ∧ segment_of_chain repeated_graph ["a"; "b"]
    = [Link.Build "a" "b" [Some 3%Z; Some 7%Z]]
  ∧ head_imports repeated_graph (Module "a") "b"
    = [Link.Build "a" "b" [Some 3%Z; Some 7%Z]]
  ∧ get_line_numbers "a" "c" repeated_graph = [None]
  ∧ segment_of_chain repeated_graph ["a"; "c"] = [Link.Build "a" "c" []].
Proof. repeat split; vm_compute; reflexivity. Qed.

(** ** The pipeline on the examples *)

Example pop_shortest_chains_example :
  fst <$> _pop_shortest_chains detour_graph "a" "b" = Some [["a"; "x"; "b"]]
  ∧ fst <$> _pop_shortest_chains example_graph "a.b" "z"
    = Some [["a.b"; "c.d"; "e.f"; "z"]]
  ∧ fst <$> _pop_shortest_chains example_graph "z" "a.b" = Some [].
Proof. repeat split; vm_compute; reflexivity. Qed.

Example find_segments_example :
  fst <$> find_segments example_graph example_graph (Module "a.b") (Module "z")
  = Some (inr [[Link.Build "a.b" "c.d" [Some 3%Z]; Link.Build "c.d" "e.f" [Some 7%Z];
                Link.Build "e.f" "z" [Some 9%Z]]])
  ∧ fst <$> find_segments direct_graph direct_graph (Module "a") (Module "b")
    = Some (raise direct_chain_error).
Proof. split; vm_compute; reflexivity. Qed.

(** The notes of the example of the specification, as they are printed. *)
Example render_notes_example :
  (notes ← notes_from_chain_data
             (DetailedChain.Build
                [Link.Build "a.b" "c.d" [Some 3%Z]; Link.Build "c.d" "e.f" [Some 7%Z];
                 Link.Build "e.f" "z" [Some 9%Z]] [] []);
   mret (render_notes_from_chain_data notes))
  = inr ["- a.b -> c.d (l.3)"; "  c.d -> e.f (l.7)"; "  e.f -> z (l.9)"].
Proof. reflexivity. Qed.

(** On the example of the specification, whose imports are each recorded
    once, the two ways give the same detailed chain. *)
Example route_and_segments_example :
  let detailed :=
    DetailedChain.Build
      [Link.Build "a.b" "c.d" [Some 3%Z]; Link.Build "c.d" "e.f" [Some 7%Z];
       Link.Build "e.f" "z" [Some 9%Z]] [] [] in
  build_detailed_chain_from_route
    {| heads := {["a.b"]}; middle := ["c.d"; "e.f"]; tails := {["z"]} |} example_graph
  = inr detailed
  ∧ segments_to_collapsed_chains example_graph
      [segment_of_chain example_graph ["a"; "c.d"; "e.f"; "z"]] (Module "a") (Module "z")
    = inr [detailed].
Proof. split; vm_compute; reflexivity. Qed.

(** * Further properties *)

(** ** [pairwise] *)

(** X17: [pairwise] yields the pair at position [i] exactly when the iterable
    has items at positions [i] and [i + 1]; hence nothing for an iterable of
    fewer than two items, and one pair less than there are items. *)
Theorem pairwise_lookup {A} (iterable : list A) (i : nat) (x y : A) :
  (pairwise iterable !! i = Some (x, y)
   ↔ iterable !! i = Some x ∧ iterable !! (S i) = Some y)
  ∧ length (pairwise iterable) = length iterable - 1
  ∧ (length iterable < 2 → pairwise iterable = []).
Proof.
  split; [|split].
  - revert i. induction iterable as [|a [|b l] IH]; intros i.
    + split; [done|]. by intros [? _].
    + split; [done|]. intros [_ Hy]. by destruct i.
    + rewrite pairwise_cons_cons. destruct i as [|i].
      * simpl. split; [by intros [= -> ->]|]. by intros [[= ->] [= ->]].
      * apply IH.
  - apply pairwise_length.
  - destruct iterable as [|a [|b l]]; simpl; [done..|lia].
Qed.

(** ** The generator [_pop_shortest_chains] *)

Lemma remove_imports_size_exact (graph : ImportGraph) (es : list (string * string)) :
  NoDup es → Forall (λ e, e ∈ dom graph) es →
  size (remove_imports graph es) + length es = size graph.
Proof.
  revert graph. induction es as [|e es IH]; intros graph Hnd Hall; [simpl; lia|].
  apply NoDup_cons in Hnd as [Hnin Hnd]. apply Forall_cons in Hall as [He Hall].
  change (remove_imports graph (e :: es)) with (remove_imports (delete e graph) es).
  assert (size (delete e graph) + 1 = size graph) as Hsize.
  { apply elem_of_dom in He as [ds Hds].
    rewrite <- (insert_delete_id graph e ds) at 2 by done.
    rewrite map_size_insert_None by apply lookup_delete_eq. lia. }
  rewrite <- Hsize. simpl. rewrite <- (IH (delete e graph)); [lia|done|].
  apply Forall_forall. intros e' He'. rewrite dom_delete_L.
  apply elem_of_difference. split.
  - by eapply Forall_forall in Hall.
  - intros ->%elem_of_singleton. done.
Qed.

Section generator_properties.
Context `{finder : ShortestChainFinder}.
Implicit Types (graph final : ImportGraph) (importer imported : string).

Lemma pop_run_final graph importer imported chains final :
  pop_run importer imported graph chains final →
  pop_shortest_chain final importer imported = None.
Proof. induction 1; done. Qed.

Lemma pop_run_sorted graph importer imported chains final :
  pop_run importer imported graph chains final →
  StronglySorted (λ c c', length c ≤ length c') chains.
Proof.
  induction 1 as [graph Hpop|graph chain graph' chains final Hpop Hrun IH];
    constructor; [done|].
  destruct (pop_run_removed _ _ _ _ _ Hrun) as (_ & Hchains & _ & _).
  apply pop_shortest_chain_Some in Hpop as [Hfind ->].
  eapply Forall_impl; [exact Hchains|]. intros c Hc. simpl.
  apply (find_shortest_chain_shortest _ _ _ _ _ Hfind).
  eapply is_chain_subgraph; [|done].
  intros e. rewrite remove_chain_imports, elem_of_dom_remove_imports. by intros [? _].
Qed.

End generator_properties.

(** X1: the chains come shortest first: no chain of the yielded sequence is
    longer than a later one, and each has at least two modules. *)
Theorem pop_shortest_chains_shortest_come_first `{finder : ShortestChainFinder}
    (graph : ImportGraph) (importer imported : string) :
  ∃ chains final,
    _pop_shortest_chains graph importer imported = Some (chains, final)
    ∧ StronglySorted (λ c c', length c ≤ length c') chains
    ∧ Forall (λ c, 2 ≤ length c) chains.
Proof.
  destruct (pop_shortest_chains_run graph importer imported)
    as (chains & final & Hpop & Hrun).
  exists chains, final. split; [done|]. split; [by eapply pop_run_sorted|].
  destruct (pop_run_removed _ _ _ _ _ Hrun) as (_ & Hchains & _ & _).
  eapply Forall_impl; [exact Hchains|]. by intros c (_ & _ & ? & _).
Qed.

(** X2: the loop accounts for every import: the imports left and the imports
    of the yielded chains add up to the imports of the graph, so there are
    at most as many chains as imports; the details of an import that is left
    are untouched, and a removed import has none any more. *)
Theorem pop_shortest_chains_accounting `{finder : ShortestChainFinder}
    (graph : ImportGraph) (importer imported : string) :
  ∃ chains final,
    _pop_shortest_chains graph importer imported = Some (chains, final)
    ∧ size final + length (removed_imports chains) = size graph
    ∧ length chains ≤ size graph
    ∧ ∀ a b, get_import_details final a b
             = if decide ((a, b) ∈ removed_imports chains) then []
               else get_import_details graph a b.
Proof.
  destruct (pop_shortest_chains_run graph importer imported)
    as (chains & final & Hpop & Hrun).
  exists chains, final. split; [done|].
  pose proof (pop_run_length _ _ _ _ _ Hrun) as Hlen.
  destruct (pop_run_removed _ _ _ _ _ Hrun) as (Hnd & Hchains & -> & _).
  split; [|split; [lia|]].
  - apply remove_imports_size_exact; [done|].
    apply Forall_forall.
    intros e (es & He & (c & -> & Hc)%list_elem_of_fmap)%list_elem_of_join.
    rewrite Forall_forall in Hchains. destruct (Hchains c Hc) as (_ & _ & _ & Hall).
    by eapply Forall_forall in Hall.
  - intros a b. unfold get_import_details. rewrite lookup_remove_imports.
    by destruct (decide _).
Qed.

(** X3: the generator leaves nothing to find: run again on the graph it
    left, it yields no chain and changes nothing, and [find_segments] on
    that graph returns no segment. *)
Theorem pop_shortest_chains_exhausts `{finder : ShortestChainFinder}
    (graph reference_graph : ImportGraph) (importer imported : Module_) :
  ∃ chains final,
    _pop_shortest_chains graph (name importer) (name imported) = Some (chains, final)
    ∧ _pop_shortest_chains final (name importer) (name imported) = Some ([], final)
    ∧ find_segments final reference_graph importer imported = Some (inr [], final).
Proof.
  destruct (pop_shortest_chains_run graph (name importer) (name imported))
    as (chains & final & Hpop & Hrun).
  exists chains, final. split; [done|].
  apply pop_run_final in Hrun.
  unfold _pop_shortest_chains, find_segments. simpl. by rewrite Hrun.
Qed.

(** ** [find_segments] *)

Lemma is_chain_two (g : ImportGraph) (a b : string) (c : list string) :
  is_chain g a b c → length c = 2 → c = [a; b] ∧ (a, b) ∈ dom g.
Proof.
  intros (Hh & Hl & _ & Hall) Hlen.
  destruct c as [|x [|y [|z c]]]; simpl in Hlen; try lia.
  injection Hh as ->. injection Hl as ->. split; [done|].
  rewrite pairwise_cons_cons in Hall. by apply Forall_cons in Hall as [? _].
Qed.

Lemma linked_fmap_pairwise (f : string → string → Link.t) (c : list string) :
  (∀ a b, Link.importer (f a b) = a ∧ Link.imported (f a b) = b) →
  linked ((λ e, f e.1 e.2) <$> pairwise c).
Proof.
  intros Hf. unfold linked.
  induction c as [|x [|y [|z c]] IH]; try by constructor.
  rewrite !pairwise_cons_cons, !fmap_cons, pairwise_cons_cons in *.
  constructor; [|done]. simpl. destruct (Hf x y) as [_ ->]. by destruct (Hf y z) as [-> _].
Qed.

Lemma link_ends_segment_of_chain (reference_graph : ImportGraph) (chain : list string) :
  link_ends <$> segment_of_chain reference_graph chain = pairwise chain.
Proof.
  rewrite segment_of_chain_pairwise, <- list_fmap_compose.
  rewrite <- (list_fmap_id (pairwise chain)) at 2.
  apply list_fmap_ext. by intros i [a b] _.
Qed.

Lemma link_ends_segments (reference_graph : ImportGraph) (chains : list (list string)) :
  link_ends <$> mjoin (segment_of_chain reference_graph <$> chains)
  = removed_imports chains.
Proof.
  unfold removed_imports. induction chains as [|c chains IH]; [done|].
  rewrite !fmap_cons. simpl. by rewrite fmap_app, link_ends_segment_of_chain, IH.
Qed.

Section find_segments_further.
Context `{finder : ShortestChainFinder}.
Implicit Types (graph reference_graph final : ImportGraph).

Lemma find_shortest_chain_direct graph a b :
  (a, b) ∈ dom graph → find_shortest_chain graph a b = Some [a; b].
Proof.
  intros Hab.
  assert (is_chain graph a b [a; b]) as Hchain.
  { repeat split; [simpl; lia|]. rewrite pairwise_cons_cons. by repeat constructor. }
  destruct (find_shortest_chain graph a b) as [c|] eqn:Hfind.
  - pose proof (find_shortest_chain_is_chain _ _ _ _ Hfind) as Hc.
    pose proof (find_shortest_chain_shortest _ _ _ _ _ Hfind Hchain) as Hle.
    destruct (is_chain_two _ _ _ _ Hc) as [-> _]; [|done].
    destruct Hc as (_ & _ & ? & _). simpl in *. lia.
  - by apply (find_shortest_chain_none _ _ _ [a; b]) in Hfind.
Qed.

(** What [find_segments] does, by the chains of the run. *)
Lemma find_segments_by_run graph reference_graph (importer imported : Module_)
    chains final :
  pop_run (name importer) (name imported) graph chains final →
  (Exists (λ c, length c = 2) chains
   ∧ ∃ graph', find_segments graph reference_graph importer imported
               = Some (raise direct_chain_error, graph'))
  ∨ (Forall (λ c, 3 ≤ length c) chains
     ∧ find_segments graph reference_graph importer imported
       = Some (inr (segment_of_chain reference_graph <$> chains), final)).
Proof.
  intros Hrun. pose proof (pop_run_length _ _ _ _ _ Hrun) as Hlen.
  destruct (pop_run_removed _ _ _ _ _ Hrun) as (_ & Hchains & _ & _).
  unfold find_segments.
  destruct (decide (Exists (λ c, length c = 2) chains)) as [Hex|Hnex].
  - left. split; [done|].
    apply (find_segments_loop_raises _ _ _ _ _ chains final); [done|lia|done].
  - right. assert (Forall (λ c : list string, 3 ≤ length c) chains) as Hthree.
    { apply Forall_forall. intros c Hc.
      rewrite Forall_forall in Hchains. destruct (Hchains c Hc) as (_ & _ & ? & _).
      destruct (decide (length c = 2)) as [Heq|]; [|lia].
      destruct Hnex. apply Exists_exists. by exists c. }
    split; [done|].
    rewrite (find_segments_loop_segments _ _ _ _ _ chains final); [done..|lia|].
    eapply Forall_impl; [exact Hthree|]. intros c. simpl. lia.
Qed.

End find_segments_further.

(** X4: [find_segments] raises exactly when the graph has the direct import
    of [imported] by [importer]: then it raises [ValueError] on the first
    chain, having removed that one import from the graph; otherwise it
    returns. *)
Theorem find_segments_raises_iff_direct_import `{finder : ShortestChainFinder}
    (graph reference_graph : ImportGraph) (importer imported : Module_) :
  ((name importer, name imported) ∈ dom graph →
   find_segments graph reference_graph importer imported
   = Some (raise direct_chain_error,
           remove_import graph (name importer) (name imported)))
  ∧ ((name importer, name imported) ∉ dom graph →
     ∃ segments final,
       find_segments graph reference_graph importer imported
       = Some (inr segments, final)).
Proof.
  split.
  - intros Hdirect. unfold find_segments. cbn [find_segments_loop].
    unfold pop_shortest_chain. rewrite (find_shortest_chain_direct _ _ _ Hdirect).
    reflexivity.
  - intros Hnone.
    destruct (pop_run_exists graph (name importer) (name imported))
      as (chains & final & Hrun).
    destruct (find_segments_by_run graph reference_graph importer imported _ _ Hrun)
      as [[Hex _]|[_ Hfind]]; [|by eauto].
    destruct (pop_run_removed _ _ _ _ _ Hrun) as (_ & Hchains & _ & _).
    apply Exists_exists in Hex as (c & Hc & Hlen).
    rewrite Forall_forall in Hchains.
    by destruct (is_chain_two _ _ _ _ (Hchains c Hc) Hlen) as [_ ?].
Qed.

(** X5: without a direct import, [find_segments] returns segments that are
    chains of links from [importer] to [imported], of at least two links
    each, every link carrying the sorted line numbers the reference graph
    has for it. *)
Theorem find_segments_segments_are_chains `{finder : ShortestChainFinder}
    (graph reference_graph : ImportGraph) (importer imported : Module_) :
  (name importer, name imported) ∉ dom graph →
  ∃ segments final,
    find_segments graph reference_graph importer imported = Some (inr segments, final)
    ∧ Forall (λ segment,
                2 ≤ length segment
                ∧ linked segment
                ∧ Link.importer <$> head segment = Some (name importer)
                ∧ Link.imported <$> last segment = Some (name imported)
                ∧ Forall (λ link, link = link_of reference_graph (Link.importer link)
                                                 (Link.imported link)) segment)
             segments.
Proof.
  intros Hnone.
  destruct (pop_run_exists graph (name importer) (name imported))
    as (chains & final & Hrun).
  destruct (pop_run_removed _ _ _ _ _ Hrun) as (_ & Hchains & _ & _).
  destruct (find_segments_by_run graph reference_graph importer imported _ _ Hrun)
    as [[Hex _]|[Hthree Hfind]].
  { apply Exists_exists in Hex as (c & Hc & Hlen).
    rewrite Forall_forall in Hchains.
    by destruct (is_chain_two _ _ _ _ (Hchains c Hc) Hlen) as [_ ?]. }
  eexists _, final. split; [exact Hfind|].
  apply Forall_fmap, Forall_forall. intros c Hc. simpl.
  rewrite Forall_forall in Hchains, Hthree.
  destruct (Hchains c Hc) as (Hh & Hl & _ & _). specialize (Hthree c Hc).
  split; [rewrite segment_of_chain_length; lia|].
  rewrite segment_of_chain_pairwise.
  split; [by apply (linked_fmap_pairwise (link_of reference_graph))|].
  destruct c as [|x [|y c]]; simpl in Hthree; try lia.
  injection Hh as ->. split; [done|]. split.
  - rewrite last_cons_cons in Hl. apply last_Some in Hl as [c' Hc'].
    destruct c' as [|z c']; [destruct c; simplify_eq/=; lia|].
    rewrite Hc'. change (name importer :: (z :: c') ++ [name imported])
      with ((name importer :: z :: c') ++ [name imported]).
    rewrite pairwise_snoc, fmap_app. cbn [fmap list_fmap]. by rewrite last_snoc.
  - apply Forall_fmap, Forall_forall. by intros [a b] _.
Qed.

Lemma find_segments_segments_are_chains_witness :
  ∃ segments final,
    find_segments example_graph example_graph (Module "a.b") (Module "z")
    = Some (inr segments, final)
    ∧ Forall (λ segment,
                2 ≤ length segment
                ∧ linked segment
                ∧ Link.importer <$> head segment = Some "a.b"
                ∧ Link.imported <$> last segment = Some "z"
                ∧ Forall (λ link, link = link_of example_graph (Link.importer link)
                                                 (Link.imported link)) segment)
             segments.
Proof.
  apply (find_segments_segments_are_chains example_graph example_graph
           (Module "a.b") (Module "z")).
  rewrite elem_of_dom. vm_compute. by intros [? [=]].
Defined.

(** X6: when [find_segments] returns, the links of its segments are the
    imports it removed, each once: the graph it leaves is the graph without
    these imports, and has no chain from [importer] to [imported]. *)
Theorem find_segments_removes_its_links `{finder : ShortestChainFinder}
    (graph reference_graph : ImportGraph) (importer imported : Module_) :
  (name importer, name imported) ∉ dom graph →
  ∃ segments final,
    find_segments graph reference_graph importer imported = Some (inr segments, final)
    ∧ NoDup (link_ends <$> mjoin segments)
    ∧ Forall (λ link, link_ends link ∈ dom graph) (mjoin segments)
    ∧ (∀ e, e ∈ dom final ↔ e ∈ dom graph ∧ e ∉ link_ends <$> mjoin segments)
    ∧ (∀ c, ¬ is_chain final (name importer) (name imported) c).
Proof.
  intros Hnone.
  destruct (pop_run_exists graph (name importer) (name imported))
    as (chains & final & Hrun).
  destruct (pop_run_removed _ _ _ _ _ Hrun) as (Hnd & Hchains & Hfinal & Hnochain).
  destruct (find_segments_by_run graph reference_graph importer imported _ _ Hrun)
    as [[Hex _]|[_ Hfind]].
  { apply Exists_exists in Hex as (c & Hc & Hlen).
    rewrite Forall_forall in Hchains.
    by destruct (is_chain_two _ _ _ _ (Hchains c Hc) Hlen) as [_ ?]. }
  eexists _, final. split; [exact Hfind|].
  rewrite link_ends_segments. split; [done|]. split; [|split; [|done]].
  - apply Forall_forall. intros link Hlink.
    assert (link_ends link ∈ removed_imports chains) as Hin.
    { rewrite <- (link_ends_segments reference_graph). by apply list_elem_of_fmap_2. }
    apply list_elem_of_join in Hin as (es & He & (c & -> & Hc)%list_elem_of_fmap).
    rewrite Forall_forall in Hchains. destruct (Hchains c Hc) as (_ & _ & _ & Hall).
    by eapply Forall_forall in Hall.
  - intros e. rewrite Hfinal. apply elem_of_dom_remove_imports.
Qed.

Lemma find_segments_removes_its_links_witness :
  ∃ segments final,
    find_segments example_graph example_graph (Module "a.b") (Module "z")
    = Some (inr segments, final)
    ∧ NoDup (link_ends <$> mjoin segments)
    ∧ Forall (λ link, link_ends link ∈ dom example_graph) (mjoin segments)
    ∧ (∀ e, e ∈ dom final ↔ e ∈ dom example_graph ∧ e ∉ link_ends <$> mjoin segments)
    ∧ (∀ c, ¬ is_chain final "a.b" "z" c).
Proof.
  apply (find_segments_removes_its_links example_graph example_graph
           (Module "a.b") (Module "z")).
  rewrite elem_of_dom. vm_compute. by intros [? [=]].
Defined.

Section find_segments_cases.
Context `{finder : ShortestChainFinder}.
Implicit Types (graph reference_graph final : ImportGraph).

Lemma find_segments_with_direct_import graph reference_graph (importer imported : Module_) :
  (name importer, name imported) ∈ dom graph →
  find_segments graph reference_graph importer imported
  = Some (raise direct_chain_error,
          remove_import graph (name importer) (name imported)).
Proof.
  intros Hdirect. unfold find_segments. cbn [find_segments_loop].
  unfold pop_shortest_chain. by rewrite (find_shortest_chain_direct _ _ _ Hdirect).
Qed.

Lemma find_segments_without_direct_import graph reference_graph
    (importer imported : Module_) chains final :
  (name importer, name imported) ∉ dom graph →
  pop_run (name importer) (name imported) graph chains final →
  Forall (λ c, 3 ≤ length c) chains
  ∧ find_segments graph reference_graph importer imported
    = Some (inr (segment_of_chain reference_graph <$> chains), final).
Proof.
  intros Hnone Hrun.
  destruct (find_segments_by_run graph reference_graph importer imported _ _ Hrun)
    as [[Hex _]|?]; [|done].
  destruct (pop_run_removed _ _ _ _ _ Hrun) as (_ & Hchains & _ & _).
  apply Exists_exists in Hex as (c & Hc & Hlen).
  rewrite Forall_forall in Hchains.
  by destruct (is_chain_two _ _ _ _ (Hchains c Hc) Hlen) as [_ ?].
Qed.

End find_segments_cases.

(** X7: the reference graph decides line numbers and nothing else: with two
    reference graphs [find_segments] leaves the same graph, raises the same
    error or returns segments with the same links, line numbers aside. *)
Theorem find_segments_reference_graph `{finder : ShortestChainFinder}
    (graph reference1 reference2 : ImportGraph) (importer imported : Module_) :
  ∃ result1 result2 final,
    find_segments graph reference1 importer imported = Some (result1, final)
    ∧ find_segments graph reference2 importer imported = Some (result2, final)
    ∧ match result1, result2 with
      | inl e1, inl e2 => e1 = e2
      | inr segments1, inr segments2 =>
          (λ segment : Chain, link_ends <$> segment) <$> segments1
          = (λ segment : Chain, link_ends <$> segment) <$> segments2
      | _, _ => False
      end.
Proof.
  destruct (decide ((name importer, name imported) ∈ dom graph)) as [Hdirect|Hnone].
  - eexists _, _, _. split; [by apply find_segments_with_direct_import|].
    split; [by apply find_segments_with_direct_import|]. done.
  - destruct (pop_run_exists graph (name importer) (name imported))
      as (chains & final & Hrun).
    destruct (find_segments_without_direct_import graph reference1 _ _ _ _ Hnone Hrun)
      as [_ H1].
    destruct (find_segments_without_direct_import graph reference2 _ _ _ _ Hnone Hrun)
      as [_ H2].
    eexists _, _, _. split; [exact H1|]. split; [exact H2|]. simpl.
    rewrite <- !list_fmap_compose. apply list_fmap_ext. intros i c _. simpl.
    by rewrite !link_ends_segment_of_chain.
Qed.

(** ** Extraction followed by collapsing *)

Lemma result_mapM_total {A B} (f : A → Result B) (xs : list A) :
  Forall (λ x, ∃ y, f x = inr y) xs →
  ∃ ys, result_mapM f xs = inr ys ∧ length ys = length xs.
Proof.
  induction 1 as [|x xs [y Hy] _ (ys & Hys & Hlen)]; [by exists []|].
  exists (y :: ys). simpl. rewrite Hy, Hys. split; [done|]. simpl. by rewrite Hlen.
Qed.

Lemma in_family_self (family : Module_) : in_family family (name family) = true.
Proof.
  unfold in_family. destruct family as [n]. simpl.
  by rewrite bool_decide_true.
Qed.

Lemma chain_ends (g : ImportGraph) (a b : string) (c : list string) :
  is_chain g a b c → 3 ≤ length c →
  ∃ m1 ms, c = a :: m1 :: ms ++ [b]
           ∧ (a, m1) ∈ dom g ∧ (List.last ms m1, b) ∈ dom g.
Proof.
  intros (Hh & Hl & _ & Hall) Hlen.
  destruct c as [|x [|m1 c]]; simpl in Hlen; try lia. injection Hh as ->.
  rewrite last_cons_cons in Hl. apply last_Some in Hl as [c' Hc'].
  destruct c' as [|z ms]; [destruct c; simplify_eq/=; lia|].
  injection Hc' as -> ->. exists z, ms. split; [done|].
  change (pairwise (a :: z :: ms ++ [b]))
    with ((a, z) :: pairwise ((z :: ms) ++ [b])) in Hall.
  rewrite pairwise_snoc in Hall.
  apply Forall_cons in Hall as [Haz Hall]. split; [done|].
  apply Forall_app in Hall as [_ Hall].
  by apply Forall_cons in Hall as [? _].
Qed.

Lemma collapse_chain_succeeds (g reference_graph : ImportGraph)
    (importer imported : Module_) (c : list string) :
  dom g ⊆ dom reference_graph →
  is_chain g (name importer) (name imported) c → 3 ≤ length c →
  ∃ detailed,
    collapse_segment reference_graph importer imported
      (segment_of_chain reference_graph c) = inr detailed.
Proof.
  intros Hsub Hc Hlen.
  destruct (chain_ends _ _ _ _ Hc Hlen) as (m1 & ms & -> & Hhead & Htail).
  destruct (head_expansion_exists reference_graph importer m1) as [hs Hhs].
  destruct (tail_expansion_exists reference_graph imported (List.last ms m1))
    as [ts Hts].
  rewrite (collapse_segment_of_chain _ _ _ _ _ _ _ _ _ Hhs Hts).
  destruct hs as [|h hs].
  { destruct Hhs as (_ & _ & Hm).
    assert (name importer ∈ @nil string) as []%elem_of_nil.
    apply Hm. split; [by apply Hsub|apply in_family_self]. }
  destruct ts as [|t ts]; [|by eexists].
  destruct Hts as (_ & _ & Hm).
  assert (name imported ∈ @nil string) as []%elem_of_nil.
  apply Hm. split; [by apply Hsub|apply in_family_self].
Qed.

(** X8: when the reference graph has every import of the mutable graph and
    there is no direct import, extraction followed by collapsing against the
    reference graph raises nothing: every segment of [find_segments] has a
    head and a tail candidate, and there is one detailed chain per
    segment. *)
Theorem extraction_then_collapsing_succeeds `{finder : ShortestChainFinder}
    (graph reference_graph : ImportGraph) (importer imported : Module_) :
  dom graph ⊆ dom reference_graph →
  (name importer, name imported) ∉ dom graph →
  ∃ segments final collapsed,
    find_segments graph reference_graph importer imported = Some (inr segments, final)
    ∧ segments_to_collapsed_chains reference_graph segments importer imported
      = inr collapsed
    ∧ length collapsed = length segments.
Proof.
  intros Hsub Hnone.
  destruct (pop_run_exists graph (name importer) (name imported))
    as (chains & final & Hrun).
  destruct (pop_run_removed _ _ _ _ _ Hrun) as (_ & Hchains & _ & _).
  destruct (find_segments_without_direct_import graph reference_graph _ _ _ _ Hnone Hrun)
    as [Hthree Hfind].
  destruct (result_mapM_total (collapse_segment reference_graph importer imported)
              (segment_of_chain reference_graph <$> chains)) as (collapsed & Hc & Hlen).
  { apply Forall_fmap, Forall_forall. intros c Hc. simpl.
    rewrite Forall_forall in Hchains, Hthree.
    by eapply collapse_chain_succeeds; [|apply Hchains|apply Hthree]. }
  by eexists _, final, collapsed.
Qed.

Lemma extraction_then_collapsing_succeeds_witness :
  ∃ segments final collapsed,
    find_segments example_graph example_graph (Module "a.b") (Module "z")
    = Some (inr segments, final)
    ∧ segments_to_collapsed_chains example_graph segments (Module "a.b") (Module "z")
      = inr collapsed
    ∧ length collapsed = length segments.
Proof.
  apply (extraction_then_collapsing_succeeds example_graph example_graph
           (Module "a.b") (Module "z")).
  - done.
  - rewrite elem_of_dom. vm_compute. by intros [? [=]].
Defined.

(** ** [segments_to_collapsed_chains] *)

Lemma result_mapM_inl {A B} (f : A → Result B) (xs : list A) (e : PyError) :
  result_mapM f xs = inl e → ∃ x, x ∈ xs ∧ f x = inl e.
Proof.
  induction xs as [|x xs IH]; [done|]. simpl.
  unfold mbind, result_mbind. simpl.
  destruct (f x) as [e'|y] eqn:Hfx; simpl.
  - intros [= ->]. exists x. split; [left|done].
  - destruct (result_mapM f xs) as [e'|ys]; [|done]. simpl. intros [= ->].
    destruct IH as (x' & ? & ?); [done|]. exists x'. split; [by right|done].
Qed.

Lemma removelast_length {A} (l : list A) : length (removelast l) = length l - 1.
Proof.
  induction l as [|x [|y l] IH]; [done..|].
  change (removelast (x :: y :: l)) with (x :: removelast (y :: l)).
  simpl length in *. lia.
Qed.

Lemma linked_replace_ends (first first' : Link.t) (inner : Chain) (final final' : Link.t) :
  Link.imported first' = Link.imported first →
  Link.importer final' = Link.importer final →
  linked (first :: inner ++ [final]) → linked (first' :: inner ++ [final']).
Proof.
  unfold linked. revert first first'.
  induction inner as [|x inner IH]; intros first first' Hfirst Hfinal.
  - change (Forall (λ p : Link.t * Link.t, Link.imported p.1 = Link.importer p.2)
                    [(first, final)]
            → Forall (λ p : Link.t * Link.t, Link.imported p.1 = Link.importer p.2)
                    [(first', final')]).
    intros [H _]%Forall_cons. constructor; [|constructor]. simpl in *. congruence.
  - change (pairwise (first :: (x :: inner) ++ [final]))
      with ((first, x) :: pairwise (x :: inner ++ [final])).
    change (pairwise (first' :: (x :: inner) ++ [final']))
      with ((first', x) :: pairwise (x :: inner ++ [final'])).
    rewrite !Forall_cons. simpl. intros [Hfx Hrest]. split; [congruence|].
    by apply (IH x x).
Qed.

(** X9: the errors of [segments_to_collapsed_chains]: no segment, no
    detailed chain and no error; an empty segment raises [IndexError]; no
    other exception is ever raised; and a returned list has one detailed
    chain per segment. *)
Theorem segments_to_collapsed_chains_errors (graph : ImportGraph)
    (segments : list Chain) (importer imported : Module_) :
  segments_to_collapsed_chains graph [] importer imported = inr []
  ∧ ([] ∈ segments →
     segments_to_collapsed_chains graph segments importer imported = inl IndexError)
  ∧ (∀ e, segments_to_collapsed_chains graph segments importer imported = inl e →
          e = IndexError)
  ∧ (∀ collapsed,
       segments_to_collapsed_chains graph segments importer imported = inr collapsed →
       length collapsed = length segments).
Proof.
  unfold segments_to_collapsed_chains. split; [done|]. split; [|split].
  - intros Hin. apply (result_mapM_raises _ _ []); [|done..].
    intros segment e. apply collapse_segment_error.
  - intros e (segment & _ & He)%result_mapM_inl. by eapply collapse_segment_error.
  - intros collapsed Hall%result_mapM_inr. symmetry. by eapply Forall2_length.
Qed.

(** X10: the shape of a collapsed chain: it has as many links as the
    segment, and two for a segment of one link; its interior is the
    segment's; its first link and all extra firsts import the segment's head
    boundary, its last link and all extra lasts are imports by the tail
    boundary; and, the segment being a chain of two links or more in the
    sense of the data model, so is the collapsed chain. *)
Theorem collapsed_chain_shape (graph : ImportGraph) (segments : list Chain)
    (importer imported : Module_) (collapsed : list DetailedChain.t) :
  segments_to_collapsed_chains graph segments importer imported = inr collapsed →
  Forall2 (λ segment detailed,
             length (DetailedChain.chain detailed) = Nat.max 2 (length segment)
             ∧ py_inner (DetailedChain.chain detailed) = py_inner segment
             ∧ Forall (λ link, Some (Link.imported link) = Link.imported <$> head segment)
                      (option_list (head (DetailedChain.chain detailed))
                       ++ DetailedChain.extra_firsts detailed)
             ∧ Forall (λ link, Some (Link.importer link) = Link.importer <$> last segment)
                      (option_list (last (DetailedChain.chain detailed))
                       ++ DetailedChain.extra_lasts detailed)
             ∧ (2 ≤ length segment → linked segment →
                linked (DetailedChain.chain detailed)))
          segments collapsed.
Proof.
  unfold segments_to_collapsed_chains. rewrite result_mapM_inr.
  intros Hall. eapply Forall2_impl; [exact Hall|].
  intros segment detailed
    (first & rest & h & hs & t & ts & -> & _ & _ & ->)%collapse_segment_collapses_to.
  cbn [DetailedChain.chain DetailedChain.extra_firsts DetailedChain.extra_lasts].
  set (boundary := Link.imported first).
  set (final := List.last rest first).
  assert (last (first :: rest) = Some final) as Hlast.
  { unfold final. clear. revert first.
    induction rest as [|x rest IH]; intros first; [done|].
    rewrite last_cons_cons, last_cons_default. apply IH. }
  split; [|split; [|split; [|split]]].
  - unfold py_inner. cbn [tail app]. rewrite length_cons, length_app, removelast_length.
    simpl. destruct rest; simpl; lia.
  - unfold py_inner at 1. cbn [app tail]. apply removelast_last.
  - cbn [app head option_list fmap option_fmap option_map]. constructor; [done|].
    apply Forall_fmap, Forall_forall. by intros m _.
  - rewrite Hlast. cbn [app].
    rewrite app_comm_cons, last_snoc.
    cbn [option_list app fmap option_fmap option_map]. constructor; [done|].
    apply Forall_fmap, Forall_forall. by intros m _.
  - intros Hlen Hlinked.
    destruct rest as [|second rest]; [simpl in Hlen; lia|].
    assert (first :: second :: rest
            = first :: py_inner (first :: second :: rest) ++ [final]) as Hsplit.
    { unfold py_inner, final. cbn [tail]. f_equal. by apply app_removelast_last. }
    rewrite Hsplit in Hlinked. cbn [app].
    by eapply linked_replace_ends; [..|exact Hlinked].
Qed.

Lemma collapsed_chain_shape_witness :
  Forall2 (λ segment detailed,
             length (DetailedChain.chain detailed) = Nat.max 2 (length segment)
             ∧ py_inner (DetailedChain.chain detailed) = py_inner segment
             ∧ Forall (λ link, Some (Link.imported link) = Link.imported <$> head segment)
                      (option_list (head (DetailedChain.chain detailed))
                       ++ DetailedChain.extra_firsts detailed)
             ∧ Forall (λ link, Some (Link.importer link) = Link.importer <$> last segment)
                      (option_list (last (DetailedChain.chain detailed))
                       ++ DetailedChain.extra_lasts detailed)
             ∧ (2 ≤ length segment → linked segment →
                linked (DetailedChain.chain detailed)))
          [segment_of_chain example_graph ["a"; "c.d"; "e.f"; "z"]]
          [DetailedChain.Build
             [Link.Build "a.b" "c.d" [Some 3%Z]; Link.Build "c.d" "e.f" [Some 7%Z];
              Link.Build "e.f" "z" [Some 9%Z]] [] []].
Proof.
  apply (collapsed_chain_shape example_graph _ (Module "a") (Module "z")).
  vm_compute. reflexivity.
Defined.

(** X11: collapsing reads a segment only through its head boundary
    [segment[0].imported], its tail boundary [segment[-1].importer] and its
    interior [segment[1:-1]]: two segments that agree on these collapse
    alike, whatever the other fields of their first and last links. *)
Theorem collapsing_ignores_the_ends (graph : ImportGraph) (importer imported : Module_)
    (first first' : Link.t) (rest rest' : Chain) :
  Link.imported first = Link.imported first' →
  Link.importer (List.last rest first) = Link.importer (List.last rest' first') →
  py_inner (first :: rest) = py_inner (first' :: rest') →
  segments_to_collapsed_chains graph [first :: rest] importer imported
  = segments_to_collapsed_chains graph [first' :: rest'] importer imported.
Proof.
  intros Hhead Htail Hinner. unfold segments_to_collapsed_chains. cbn [result_mapM].
  destruct (head_expansion_exists graph importer (Link.imported first)) as [hs Hhs].
  destruct (tail_expansion_exists graph imported (Link.importer (List.last rest first)))
    as [ts Hts].
  rewrite (collapse_segment_cons _ _ _ _ _ _ _ Hhs Hts).
  rewrite Hhead in Hhs. rewrite Htail in Hts.
  rewrite (collapse_segment_cons _ _ _ _ _ _ _ Hhs Hts).
  by rewrite Hhead, Htail, Hinner.
Qed.

Lemma collapsing_ignores_the_ends_witness :
  segments_to_collapsed_chains example_graph
    [[Link.Build "a" "c.d" []; Link.Build "c.d" "e.f" [Some 7%Z];
      Link.Build "e.f" "z" [Some 9%Z]]] (Module "a") (Module "z")
  = segments_to_collapsed_chains example_graph
      [[Link.Build "anything" "c.d" [None]; Link.Build "c.d" "e.f" [Some 7%Z];
        Link.Build "e.f" "elsewhere" [Some 1%Z]]] (Module "a") (Module "z").
Proof.
  apply (collapsing_ignores_the_ends example_graph (Module "a") (Module "z")
           (Link.Build "a" "c.d" [])
           (Link.Build "anything" "c.d" [None])
           [Link.Build "c.d" "e.f" [Some 7%Z]; Link.Build "e.f" "z" [Some 9%Z]]
           [Link.Build "c.d" "e.f" [Some 7%Z]; Link.Build "e.f" "elsewhere" [Some 1%Z]]);
    reflexivity.
Defined.

Lemma last_cons_default' {A} (x : A) (l : list A) :
  Some (List.last l x) = last (x :: l).
Proof.
  revert x. induction l as [|y l IH]; intros x; [done|].
  rewrite last_cons_cons, <- IH. f_equal. apply last_cons_default.
Qed.

(** ** [build_detailed_chain_from_route] *)

Lemma sorted_elements_length (X : gset string) :
  length (sorted_str (elements X)) = size X.
Proof. unfold sorted_str. by rewrite merge_sort_Permutation. Qed.

Lemma get_line_numbers_nonempty (importer imported : string) (graph : ImportGraph) :
  get_line_numbers importer imported graph ≠ [].
Proof. unfold get_line_numbers. by destruct (get_import_details _ _ _). Qed.

Lemma build_detailed_chain_from_route_nil (graph : ImportGraph) (route : Route) :
  middle route = [] →
  build_detailed_chain_from_route route graph
  = match sorted_str (elements (heads route)), sorted_str (elements (tails route)) with
    | [h], [t] => inr (DetailedChain.Build [route_link graph h t] [] [])
    | _, _ => inl IndexError
    end.
Proof.
  intros Hmiddle. unfold build_detailed_chain_from_route. rewrite Hmiddle.
  destruct (sorted_str (elements (heads route))) as [|h [|h' hs]];
    destruct (sorted_str (elements (tails route))) as [|t [|t' ts]]; reflexivity.
Qed.

(** X12: [build_detailed_chain_from_route] raises exactly when the route has
    no head, or no tail, or an empty middle together with more than one head
    or more than one tail; the exception is [IndexError]. *)
Theorem build_detailed_chain_from_route_raises (route : Route) (graph : ImportGraph) :
  (build_detailed_chain_from_route route graph = inl IndexError
   ↔ size (heads route) = 0 ∨ size (tails route) = 0
     ∨ (middle route = [] ∧ (1 < size (heads route) ∨ 1 < size (tails route))))
  ∧ (∀ e, build_detailed_chain_from_route route graph = inl e → e = IndexError).
Proof.
  rewrite <- !sorted_elements_length.
  destruct (middle route) as [|m1 ms] eqn:Hmiddle.
  - rewrite (build_detailed_chain_from_route_nil graph route Hmiddle).
    destruct (sorted_str (elements (heads route))) as [|h [|h' hs]];
      destruct (sorted_str (elements (tails route))) as [|t [|t' ts]];
      (split; [|by intros e [= <-]]); simpl;
      intuition (discriminate || lia || done).
  - rewrite (build_detailed_chain_from_route_cons graph route m1 ms Hmiddle).
    destruct (sorted_str (elements (heads route))) as [|h hs];
      destruct (sorted_str (elements (tails route))) as [|t ts];
      (split; [|by intros e [= <-]]); simpl;
      intuition (discriminate || lia || done).
Qed.

Example build_detailed_chain_from_route_empty_middle :
  build_detailed_chain_from_route
    {| heads := {["a"]}; middle := []; tails := {["b"]} |} direct_graph
  = inr (DetailedChain.Build [Link.Build "a" "b" [Some 1%Z]] [] [])
  ∧ build_detailed_chain_from_route
      {| heads := {["a"; "a.x"]}; middle := []; tails := {["b"]} |} direct_graph
    = inl IndexError
  ∧ build_detailed_chain_from_route
      {| heads := ∅; middle := ["m"]; tails := {["b"]} |} direct_graph
    = inl IndexError.
Proof. repeat split; vm_compute; reflexivity. Qed.

(** X13: a detailed chain built from a route runs from the least head
    through the middle to the least tail and is a chain in the sense of the
    data model; the extra firsts are the other heads and the extra lasts the
    other tails, in order; and every link has the line numbers of
    [get_line_numbers], which are never empty. *)
Theorem build_detailed_chain_from_route_shape (route : Route) (graph : ImportGraph)
    (detailed : DetailedChain.t) :
  build_detailed_chain_from_route route graph = inr detailed →
  ∃ h hs t ts,
    sorted_str (elements (heads route)) = h :: hs
    ∧ sorted_str (elements (tails route)) = t :: ts
    ∧ link_ends <$> DetailedChain.chain detailed = pairwise (h :: middle route ++ [t])
    ∧ linked (DetailedChain.chain detailed)
    ∧ Link.importer <$> DetailedChain.extra_firsts detailed = hs
    ∧ Link.imported <$> DetailedChain.extra_lasts detailed = ts
    ∧ Forall (λ link, Some (Link.imported link) = head (middle route))
             (DetailedChain.extra_firsts detailed)
    ∧ Forall (λ link, Some (Link.importer link) = last (middle route))
             (DetailedChain.extra_lasts detailed)
    ∧ Forall (λ link, link = route_link graph (Link.importer link) (Link.imported link)
                      ∧ Link.line_numbers link ≠ [])
             (DetailedChain.chain detailed ++ DetailedChain.extra_firsts detailed
              ++ DetailedChain.extra_lasts detailed).
Proof.
  destruct (middle route) as [|m1 ms] eqn:Hmiddle.
  - rewrite (build_detailed_chain_from_route_nil graph route Hmiddle).
    destruct (sorted_str (elements (heads route))) as [|h [|h' hs]]; try done;
      destruct (sorted_str (elements (tails route))) as [|t [|t' ts]]; try done.
    intros [= <-]. exists h, [], t, []. repeat split; try by constructor.
    repeat constructor. apply get_line_numbers_nonempty.
  - rewrite (build_detailed_chain_from_route_cons graph route m1 ms Hmiddle).
    destruct (sorted_str (elements (heads route))) as [|h hs]; try done;
      destruct (sorted_str (elements (tails route))) as [|t ts]; try done.
    intros [= <-]. exists h, hs, t, ts.
    cbn [DetailedChain.chain DetailedChain.extra_firsts DetailedChain.extra_lasts].
    assert (route_link graph h m1
              :: ((λ e, route_link graph e.1 e.2) <$> pairwise (m1 :: ms))
              ++ [route_link graph (List.last ms m1) t]
            = (λ e, route_link graph e.1 e.2) <$> pairwise (h :: (m1 :: ms) ++ [t]))
      as ->.
    { change (pairwise (h :: (m1 :: ms) ++ [t]))
        with ((h, m1) :: pairwise ((m1 :: ms) ++ [t])).
      by rewrite pairwise_snoc, fmap_cons, fmap_app. }
    split; [done|]. split; [done|]. split.
    { rewrite <- list_fmap_compose.
      rewrite <- (list_fmap_id (pairwise _)) at 2.
      apply list_fmap_ext. by intros i [a b] _. }
    split; [by apply (linked_fmap_pairwise (route_link graph))|].
    split.
    { rewrite <- list_fmap_compose. rewrite <- (list_fmap_id hs) at 2.
      by apply list_fmap_ext. }
    split.
    { rewrite <- list_fmap_compose. rewrite <- (list_fmap_id ts) at 2.
      by apply list_fmap_ext. }
    split; [apply Forall_fmap, Forall_forall; by intros m _|].
    split.
    { apply Forall_fmap, Forall_forall. intros m _. simpl.
      by rewrite last_cons_default'. }
    rewrite !Forall_app. repeat split; apply Forall_fmap, Forall_forall;
      intros x _; simpl; (split; [done|apply get_line_numbers_nonempty]).
Qed.

Lemma build_detailed_chain_from_route_shape_witness :
  let route := {| heads := {["a.b"; "x.y"]}; middle := ["c.d"]; tails := {["e.f"]} |} in
  let detailed :=
    DetailedChain.Build
      [Link.Build "a.b" "c.d" [Some 3%Z]; Link.Build "c.d" "e.f" [Some 7%Z]]
      [Link.Build "x.y" "c.d" [Some 4%Z]] [] in
  ∃ h hs t ts,
    sorted_str (elements (heads route)) = h :: hs
    ∧ sorted_str (elements (tails route)) = t :: ts
    ∧ link_ends <$> DetailedChain.chain detailed = pairwise (h :: middle route ++ [t])
    ∧ linked (DetailedChain.chain detailed)
    ∧ Link.importer <$> DetailedChain.extra_firsts detailed = hs
    ∧ Link.imported <$> DetailedChain.extra_lasts detailed = ts
    ∧ Forall (λ link, Some (Link.imported link) = head (middle route))
             (DetailedChain.extra_firsts detailed)
    ∧ Forall (λ link, Some (Link.importer link) = last (middle route))
             (DetailedChain.extra_lasts detailed)
    ∧ Forall (λ link, link = route_link example_graph (Link.importer link)
                                        (Link.imported link)
                      ∧ Link.line_numbers link ≠ [])
             (DetailedChain.chain detailed ++ DetailedChain.extra_firsts detailed
              ++ DetailedChain.extra_lasts detailed).
Proof.
  intros route detailed.
  apply (build_detailed_chain_from_route_shape route example_graph detailed).
  vm_compute. reflexivity.
Defined.

(** ** Notes *)

Lemma notes_from_chain_data_cons (first : Link.t) (rest : Chain)
    (extra_firsts extra_lasts : list Link.t) :
  notes_from_chain_data (DetailedChain.Build (first :: rest) extra_firsts extra_lasts)
  = inr (first_link_notes first extra_firsts
         ++ (plain_note <$> py_inner (first :: rest))
         ++ match rest with
            | [] => []
            | _ :: _ => last_link_notes (List.last rest first) extra_lasts
            end).
Proof.
  unfold notes_from_chain_data.
  cbn [DetailedChain.chain DetailedChain.extra_firsts DetailedChain.extra_lasts
       py_first py_last].
  unfold mbind, result_mbind, mret, result_mret. cbn [result_bind].
  rewrite notes_from_direct_import_first, notes_from_direct_import_last.
  rewrite (foldl_extend (λ direct_import, _notes_from_direct_import direct_import None None)).
  assert (∀ l : list Link.t,
            mjoin ((λ d, _notes_from_direct_import d None None) <$> l) = plain_note <$> l)
    as ->.
  { induction l as [|d l IH]; [done|].
    change (plain_note d :: mjoin ((λ d, _notes_from_direct_import d None None) <$> l)
            = plain_note d :: (plain_note <$> l)).
    by rewrite IH. }
  destruct rest as [|second rest].
  - by rewrite bool_decide_false by (simpl; lia).
  - rewrite bool_decide_true by (simpl; lia). cbn [result_bind].
    by rewrite <- app_assoc.
Qed.

Lemma first_link_notes_line_numbers (first : Link.t) (extra_firsts : list Link.t) :
  ImportNote.line_numbers <$> first_link_notes first extra_firsts
  = Link.line_numbers <$> first :: extra_firsts
  ∧ ImportNote.module <$> first_link_notes first extra_firsts
    = Link.importer <$> first :: extra_firsts.
Proof.
  destruct extra_firsts as [|extra extras]; [done|].
  assert (extra :: extras
          = removelast (extra :: extras) ++ [List.last extras extra]) as Hsplit.
  { rewrite <- (last_cons_default extra extras extra). by apply app_removelast_last. }
  unfold first_link_notes.
  remember (removelast (extra :: extras)) as others eqn:Hothers.
  remember (List.last extras extra) as final eqn:Hfinal.
  rewrite Hsplit. cbn zeta.
  rewrite !fmap_cons, !fmap_app, <- !list_fmap_compose. done.
Qed.

(** X14: the notes account for every link once and in order: their line
    numbers are those of the first link, the extra firsts, the interior
    links, the last link and the extra lasts; each note is anchored to the
    importer of its link, the notes of the extra lasts to the importer of
    the last link.  For a chain of a single link the extra lasts are not
    rendered at all. *)
Theorem notes_cover_every_link (first : Link.t) (rest : Chain)
    (extra_firsts extra_lasts : list Link.t) :
  ∃ notes,
    notes_from_chain_data (DetailedChain.Build (first :: rest) extra_firsts extra_lasts)
    = inr notes
    ∧ ImportNote.line_numbers <$> notes
      = Link.line_numbers
        <$> (first :: extra_firsts) ++ py_inner (first :: rest)
            ++ match rest with
               | [] => []
               | _ :: _ => List.last rest first :: extra_lasts
               end
    ∧ ImportNote.module <$> notes
      = (Link.importer <$> (first :: extra_firsts) ++ py_inner (first :: rest))
        ++ match rest with
           | [] => []
           | _ :: _ => replicate (S (length extra_lasts))
                                 (Link.importer (List.last rest first))
           end.
Proof.
  eexists. split; [apply notes_from_chain_data_cons|].
  destruct (first_link_notes_line_numbers first extra_firsts) as [Hlines Hmodules].
  rewrite !fmap_app, Hlines, Hmodules, <- !list_fmap_compose.
  split.
  - f_equal. f_equal. destruct rest as [|second rest]; [done|].
    unfold last_link_notes. by rewrite !fmap_cons, <- !list_fmap_compose.
  - rewrite <- app_assoc. f_equal. f_equal. destruct rest as [|second rest]; [done|].
    unfold last_link_notes. rewrite fmap_cons. cbn [replicate]. f_equal.
    generalize (List.last (second :: rest) first). intros final.
    induction extra_lasts as [|x l IH]; [done|].
    rewrite !fmap_cons. cbn [length replicate]. f_equal. exact IH.
Qed.

Lemma zip_seq_from {A B} (f : nat → A → B) (g : A → B) (k : nat) (l : list A) :
  (∀ i x, f (S i) x = g x) →
  (λ '(position, x), f position x) <$> zip (seq (S k) (length l)) l = g <$> l.
Proof.
  intros Hf. revert k. induction l as [|x l IH]; intros k; [done|].
  cbn [length seq zip zip_with fmap list_fmap]. f_equal; [apply Hf|apply IH].
Qed.

(** X15: [render_notes_from_chain_data] prints one line per note, in order:
    the first note after a dash, every other note after two spaces; without
    notes it prints nothing. *)
Theorem render_notes_from_chain_data_lines (note : ImportNote.t)
    (notes : list ImportNote.t) :
  render_notes_from_chain_data [] = []
  ∧ render_notes_from_chain_data (note :: notes)
    = ("- " +:+ ImportNote.__str__ note)
      :: ((λ import_note, "  " +:+ ImportNote.__str__ import_note) <$> notes)
  ∧ length (render_notes_from_chain_data (note :: notes)) = S (length notes).
Proof.
  assert (render_notes_from_chain_data (note :: notes)
          = ("- " +:+ ImportNote.__str__ note)
            :: ((λ import_note, "  " +:+ ImportNote.__str__ import_note) <$> notes))
    as Hlines.
  { unfold render_notes_from_chain_data, enumerate.
    cbn [length seq zip zip_with fmap list_fmap]. f_equal.
    apply (zip_seq_from
             (λ position import_note,
                if bool_decide (position = 0)
                then "- " +:+ ImportNote.__str__ import_note
                else "  " +:+ ImportNote.__str__ import_note)).
    intros i x. by rewrite bool_decide_false by lia. }
  split; [done|]. split; [done|]. rewrite Hlines. simpl. by rewrite length_fmap.
Qed.

(** ** [format_line_numbers] tells line numbers apart *)

Lemma comma_free_string_of_uint (d : Decimal.uint) :
  comma_free (NilEmpty.string_of_uint d) = true.
Proof. induction d; simpl; by rewrite ?IHd. Qed.

Lemma comma_free_str_of_int (n : Z) : comma_free (str_of_int n) = true.
Proof.
  unfold str_of_int, NilZero.string_of_int, NilZero.string_of_uint.
  destruct (Z.to_int n) as [d|d]; destruct d; simpl;
    by rewrite ?comma_free_string_of_uint.
Qed.

Lemma comma_free_format_line_number (entry : option Z) :
  comma_free (format_line_number entry) = true.
Proof.
  destruct entry as [n|]; [|done]. simpl. apply comma_free_str_of_int.
Qed.

Lemma int_of_string_str_of_int (n : Z) :
  NilZero.int_of_string (str_of_int n) = Some (Z.to_int n).
Proof.
  apply NilZero.isi; destruct n; simpl; try done;
    intros [= H]; by apply DecimalPos.Unsigned.to_uint_nonnil in H.
Qed.

Lemma format_line_number_inj (entry1 entry2 : option Z) :
  format_line_number entry1 = format_line_number entry2 → entry1 = entry2.
Proof.
  destruct entry1 as [n1|], entry2 as [n2|]; simpl; intros Heq; [| | |done].
  - injection Heq as H. change (str_of_int n1 = str_of_int n2) in H.
    f_equal. apply DecimalZ.to_int_inj.
    pose proof (int_of_string_str_of_int n1) as H1. rewrite H in H1.
    rewrite int_of_string_str_of_int in H1. by injection H1.
  - injection Heq as H. change (str_of_int n1 = "?") in H.
    pose proof (int_of_string_str_of_int n1) as H1. by rewrite H in H1.
  - injection Heq as H. change ("?" = str_of_int n2) in H.
    pose proof (int_of_string_str_of_int n2) as H2. by rewrite <- H in H2.
Qed.

Lemma comma_free_split (s1 s2 r1 r2 : string) :
  comma_free s1 = true → comma_free s2 = true →
  s1 +:+ String comma r1 = s2 +:+ String comma r2 → s1 = s2 ∧ r1 = r2.
Proof.
  revert s2. induction s1 as [|c1 s1 IH]; intros [|c2 s2]; simpl.
  - by intros _ _ [= ->].
  - intros _ [Hc _]%andb_true_iff [= <- _]. by rewrite Ascii.eqb_refl in Hc.
  - intros [Hc _]%andb_true_iff _ [= -> _]. by rewrite Ascii.eqb_refl in Hc.
  - intros [_ H1]%andb_true_iff [_ H2]%andb_true_iff [= -> H].
    destruct (IH s2 H1 H2 H) as [-> ->]. done.
Qed.

Lemma comma_free_no_comma (s1 s2 r : string) :
  comma_free s1 = true → s1 ≠ s2 +:+ String comma r.
Proof.
  revert s1. induction s2 as [|c2 s2 IH]; intros [|c1 s1]; simpl; try done.
  - intros [Hc _]%andb_true_iff [= -> _]. by rewrite Ascii.eqb_refl in Hc.
  - intros [_ H1]%andb_true_iff [= _ H]. by eapply IH.
Qed.

Lemma format_line_numbers_cons_cons (entry next : option Z) (others : list (option Z)) :
  format_line_numbers (entry :: next :: others)
  = format_line_number entry
    +:+ String comma (" " +:+ format_line_numbers (next :: others)).
Proof. reflexivity. Qed.

(** X16: [format_line_numbers] loses nothing: two sequences of line numbers
    that differ, in an entry, in the number of entries or in what is known,
    render differently. *)
Theorem format_line_numbers_distinct (line_numbers1 line_numbers2 : list (option Z)) :
  line_numbers1 ≠ line_numbers2 →
  format_line_numbers line_numbers1 ≠ format_line_numbers line_numbers2.
Proof.
  intros Hne Heq. apply Hne. clear Hne. revert line_numbers2 Heq.
  induction line_numbers1 as [|x1 [|y1 l1] IH]; intros [|x2 [|y2 l2]] Heq; try done.
  - by destruct x2.
  - rewrite format_line_numbers_cons_cons in Heq.
    destruct x2; discriminate Heq.
  - by destruct x1.
  - f_equal. by apply format_line_number_inj.
  - rewrite format_line_numbers_cons_cons in Heq.
    by apply comma_free_no_comma in Heq; [|apply comma_free_format_line_number].
  - rewrite format_line_numbers_cons_cons in Heq. destruct x1; discriminate Heq.
  - rewrite format_line_numbers_cons_cons in Heq. symmetry in Heq.
    by apply comma_free_no_comma in Heq; [|apply comma_free_format_line_number].
  - rewrite !format_line_numbers_cons_cons in Heq.
    apply comma_free_split in Heq as [Hx Hrest];
      [|apply comma_free_format_line_number..].
    apply format_line_number_inj in Hx as ->. f_equal. apply IH.
    by injection Hrest.
Qed.

Lemma format_line_numbers_distinct_witness :
  format_line_numbers [Some 1%Z; Some 2%Z] ≠ format_line_numbers [Some 12%Z].
Proof.
  apply (format_line_numbers_distinct [Some 1%Z; Some 2%Z] [Some 12%Z]).
  discriminate.
Defined.

(** ** Line numbers, the two ways *)

Lemma get_line_numbers_sorted_iff (graph : ImportGraph) (importer imported : string) :
  get_line_numbers importer imported graph
  = sorted_line_numbers (get_import_details graph importer imported)
  ↔ recorded_in_order graph (importer, imported).
Proof.
  unfold recorded_in_order, get_line_numbers, sorted_line_numbers. simpl.
  destruct (get_import_details graph importer imported) as [|d ds] eqn:Hd.
  - split; [done|]. by intros [? _].
  - split.
    + intros Heq. split; [done|].
      rewrite (list_fmap_compose line_number Some) in Heq.
      apply (inj (fmap Some)) in Heq. rewrite Heq.
      apply StronglySorted_le_NoDup_lt;
        [apply sorted_set_int_sorted|apply sorted_set_int_NoDup].
    + intros [_ Hsorted]. rewrite sorted_set_int_in_order by done.
      by rewrite <- list_fmap_compose.
Qed.

Lemma collapsed_links_sorted (graph : ImportGraph) (importer imported : Module_)
    (segment : Chain) (detailed : DetailedChain.t) :
  collapse_segment graph importer imported segment = inr detailed →
  Forall (λ link, link = link_of graph (Link.importer link) (Link.imported link))
         (option_list (head (DetailedChain.chain detailed))
          ++ option_list (last (DetailedChain.chain detailed))
          ++ DetailedChain.extra_firsts detailed
          ++ DetailedChain.extra_lasts detailed).
Proof.
  intros (first & rest & h & hs & t & ts & -> & _ & _ & ->)%collapse_segment_collapses_to.
  cbn [DetailedChain.chain DetailedChain.extra_firsts DetailedChain.extra_lasts
       app head option_list].
  rewrite app_comm_cons, last_snoc. cbn [option_list app].
  constructor; [done|]. constructor; [done|].
  apply Forall_app. split; apply Forall_fmap, Forall_forall; by intros m _.
Qed.

(** C10: [get_line_numbers] never returns an empty tuple: without details it
    returns [(None,)], otherwise the line numbers of the details in the
    order of the graph, neither sorted nor de-duplicated.  Every link that
    [find_segments] builds, for whatever chain, and every link that the head
    and the tail expansion of [segments_to_collapsed_chains] build, hence
    the first link, the last link, the extra firsts and the extra lasts of
    every detailed chain it returns, has instead the line numbers of the
    details in strictly increasing order, each once, and none when there is
    no detail.  The two agree exactly on an import recorded on strictly
    increasing lines. *)
Theorem line_numbers_raw_or_sorted `{finder : ShortestChainFinder}
    (graph reference_graph : ImportGraph) (importer imported : Module_)
    (a b : string) :
  let details := get_import_details graph a b in
  let sorted_link (g : ImportGraph) (x y : string) :=
    Link.Build x y (sorted_line_numbers (get_import_details g x y)) in
  get_line_numbers a b graph ≠ []
  ∧ (details = [] → get_line_numbers a b graph = [None])
  ∧ (details ≠ [] →
     get_line_numbers a b graph = (λ i, Some (line_number i)) <$> details)
  ∧ (∀ recorded : list DetailedImport,
       ∃ numbers,
         sorted_line_numbers recorded = Some <$> numbers
         ∧ StronglySorted Z.lt numbers
         ∧ (∀ n, n ∈ numbers ↔ n ∈ line_number <$> recorded)
         ∧ (recorded = [] → numbers = []))
  ∧ (get_line_numbers a b graph = sorted_line_numbers details
     ↔ details ≠ [] ∧ StronglySorted Z.lt (line_number <$> details))
  ∧ (∀ chain,
       segment_of_chain reference_graph chain
       = (λ e, sorted_link reference_graph e.1 e.2) <$> pairwise chain)
  ∧ (∃ chains final,
       _pop_shortest_chains graph (name importer) (name imported) = Some (chains, final)
       ∧ ∀ segments graph',
           find_segments graph reference_graph importer imported
           = Some (inr segments, graph') →
           segments
           = (λ chain, (λ e, sorted_link reference_graph e.1 e.2) <$> pairwise chain)
             <$> chains)
  ∧ (∀ boundary candidates,
       is_expansion (head_candidate graph importer boundary) candidates →
       head_imports graph importer boundary
       = (λ m, sorted_link graph m boundary) <$> candidates)
  ∧ (∀ boundary candidates,
       is_expansion (tail_candidate graph imported boundary) candidates →
       tail_imports graph imported boundary
       = (λ m, sorted_link graph boundary m) <$> candidates)
  ∧ (∀ segments collapsed,
       segments_to_collapsed_chains graph segments importer imported = inr collapsed →
       Forall (λ detailed,
                 Forall (λ link, link = sorted_link graph (Link.importer link)
                                                    (Link.imported link))
                        (option_list (head (DetailedChain.chain detailed))
                         ++ option_list (last (DetailedChain.chain detailed))
                         ++ DetailedChain.extra_firsts detailed
                         ++ DetailedChain.extra_lasts detailed))
              collapsed).
Proof.
  intros details sorted_link.
  split; [apply get_line_numbers_nonempty|].
  split; [unfold get_line_numbers; fold details; by intros ->|].
  split; [unfold get_line_numbers; fold details; by destruct details|].
  split; [apply sorted_line_numbers_increasing|].
  split; [apply get_line_numbers_sorted_iff|].
  split; [apply segment_of_chain_pairwise|].
  split; [|split; [|split]].
  - destruct (pop_shortest_chains_run graph (name importer) (name imported))
      as (chains & final & Hpop & Hrun).
    exists chains, final. split; [done|]. intros segments graph' Hfind.
    destruct (find_segments_by_run graph reference_graph importer imported _ _ Hrun)
      as [[_ [g Hraise]]|[_ Hreturn]]; [by rewrite Hraise in Hfind|].
    rewrite Hreturn in Hfind. injection Hfind as <- _.
    apply list_fmap_ext. intros i chain _. apply segment_of_chain_pairwise.
  - intros boundary candidates. apply head_imports_expansion.
  - intros boundary candidates. apply tail_imports_expansion.
  - intros segments collapsed Hall%result_mapM_inr.
    induction Hall as [|segment detailed segments collapsed Hone _ IH];
      constructor; [|done].
    by eapply collapsed_links_sorted.
Qed.
